(** * The Mandelbrot kernel of recipe 5.3 (mandelbrot.c), embedded in Rocq

    The notebook [notebooks/chapter05_hpc/03_ctypes.ipynb] writes one C
    function, [mandelbrot(int size, int iterations, int *col)], and calls it
    through ctypes.  This file embeds that function:

    - C [int] is a 32-bit two's complement integer, modelled as a [Z] with the
      wrap-around written out ([Int.wrap]).  C leaves the overflow of a
      signed operation undefined: the wrap-around is one reading of it, and
      what a build does there may differ.  The only operation that can
      overflow is [index = i * size + j], and only for [size > 46340];
      [index_overflows] says when it does, and a statement that rests on
      an overflowed index says so;
    - C [double] is IEEE 754 binary64 with rounding to the nearest even,
      modelled by Rocq's primitive [float], whose operations [SpecFloat]
      specifies;
    - the memory behind the pointer [col] is a finite map from element
      offsets to stored values, so [col[index] = n] is an insertion at key
      [index], whatever [index] is.  The function never reads [col];
    - a ghost log records, in program order, each entry into the body of the
      two grid loops and each store to [col]. *)

From Stdlib Require Import ZArith Lia Bool List Floats Uint63.
From stdpp Require Import gmap list.

Local Open Scope Z_scope.

(** ** Machine integers *)

Module Int.

Definition modulus : Z := 4294967296.
Definition half_modulus : Z := 2147483648.
Definition min_signed : Z := -2147483648.
Definition max_signed : Z := 2147483647.

(** [x] is the value of some [int]. *)
Definition in_range (x : Z) : Prop := min_signed <= x <= max_signed.

(** Reduction of a mathematical integer to the [int] that the machine
    keeps (two's complement). *)
Definition wrap (x : Z) : Z := (x + half_modulus) mod modulus - half_modulus.

Definition add (a b : Z) : Z := wrap (a + b).
Definition mul (a b : Z) : Z := wrap (a * b).

End Int.

(** ** Doubles *)

(** The conversion [(double) x] of an [int]. *)
Definition double_of_int (x : Z) : float :=
  if x <? 0 then (- of_uint63 (Uint63.of_Z (- x)))%float
  else of_uint63 (Uint63.of_Z x).

(** ** Memory and ghost log *)

Inductive event : Type :=
| Row (i : Z)                (* the body of the [i] loop is entered *)
| Cell (i j : Z)             (* the body of the [j] loop is entered *)
| Store (index n : Z).       (* [col[index] = n] is executed *)

Record state : Type := State {
  col : gmap Z Z;            (* the [int]s behind the pointer, by offset *)
  log : list event           (* what happened so far, oldest first *)
}.

Definition emit (e : event) (st : state) : state :=
  {| col := col st; log := log st ++ [e] |}.

(** [col[index] = n;] *)
Definition store (index n : Z) (st : state) : state :=
  {| col := <[index := n]> (col st); log := log st ++ [Store index n] |}.

(** ** The function [mandelbrot] *)

(** The innermost loop, [for (n = 0; n < iterations; n++)], from the values
    [n], [z0], [z1] of the locals.  It returns the locals as the loop leaves
    them together with the state.  [fuel] bounds the number of iterations
    that remain; [Z.to_nat (iterations - n)] is always enough
    (see [n_loop_fuel]). *)
Fixpoint n_loop (fuel : nat) (iterations index : Z) (cx cy : float)
    (n : Z) (z0 z1 : float) (st : state) : Z * float * float * state :=
  match fuel with
  | O => (n, z0, z1, st)
  | S fuel' =>
      if n <? iterations then
        let z0_2 := (z0 * z0)%float in
        let z1_2 := (z1 * z1)%float in
        if (z0_2 + z1_2 <=? 100)%float then
          let z0_tmp := (z0_2 - z1_2 + cx)%float in
          let z1' := (2 * z0 * z1 + cy)%float in
          let z0' := z0_tmp in
          n_loop fuel' iterations index cx cy (Int.add n 1) z0' z1'
                 (store index n st)
        else (n, z0, z1, st)
      else (n, z0, z1, st)
  end.

(** [cy = -1.5 + (double)i / size * 3], [cx = -2.0 + (double)j / size * 3]
    and [index = i * size + j], as the loops compute them. *)
Definition cy_at (size i : Z) : float :=
  (-1.5 + double_of_int i / double_of_int size * 3)%float.

Definition cx_at (size j : Z) : float :=
  (-2.0 + double_of_int j / double_of_int size * 3)%float.

Definition index_at (size i j : Z) : Z := Int.add (Int.mul i size) j.

(** The body of the [j] loop for the cell [(i, j)]. *)
Definition cell (size iterations i : Z) (cy : float) (j : Z) (st : state)
    : Z * float * float * state :=
  let cx := cx_at size j in
  let index := index_at size i j in
  let z0 := 0.0%float in
  let z1 := 0.0%float in
  n_loop (Z.to_nat iterations) iterations index cx cy 0 z0 z1
         (emit (Cell i j) st).

(** [for (j = 0; j < size; j++)], from the value [j] of the counter. *)
Fixpoint j_loop (fuel : nat) (size iterations i : Z) (cy : float)
    (j : Z) (st : state) : state :=
  match fuel with
  | O => st
  | S fuel' =>
      if j <? size then
        let '(_, _, _, st') := cell size iterations i cy j st in
        j_loop fuel' size iterations i cy (Int.add j 1) st'
      else st
  end.

(** The body of the [i] loop for the row [i]. *)
Definition row (size iterations i : Z) (st : state) : state :=
  let cy := cy_at size i in
  j_loop (Z.to_nat size) size iterations i cy 0 (emit (Row i) st).

(** [for (i = 0; i < size; i++)], from the value [i] of the counter. *)
Fixpoint i_loop (fuel : nat) (size iterations : Z) (i : Z) (st : state)
    : state :=
  match fuel with
  | O => st
  | S fuel' =>
      if i <? size then
        i_loop fuel' size iterations (Int.add i 1) (row size iterations i st)
      else st
  end.

(** [void mandelbrot(int size, int iterations, int *col)]. *)
Definition mandelbrot (size iterations : Z) (st : state) : state :=
  i_loop (Z.to_nat size) size iterations 0 st.

(** ** The events of a call, in closed form *)

(** What one event does to the memory. *)
Definition exec (e : event) (m : gmap Z Z) : gmap Z Z :=
  match e with
  | Store index n => <[index := n]> m
  | _ => m
  end.

(** The state after the events [evs] have happened from [st]. *)
Definition run (evs : list event) (st : state) : state :=
  {| col := foldl (fun m e => exec e m) (col st) evs; log := log st ++ evs |}.

Definition empty_state : state := State ∅ [].

(** The locals [(n, z0, z1)] with which the cell [(i, j)] leaves its
    [n] loop; [cell_steps] is the final [n], the number of iterations of
    the [n] loop that ran to their end. *)
Definition cell_locals (size iterations i j : Z) : Z * float * float :=
  (cell size iterations i (cy_at size i) j empty_state).1.

Definition cell_steps (size iterations i j : Z) : Z :=
  (cell_locals size iterations i j).1.1.

Definition cell_events (size iterations i j : Z) : list event :=
  Cell i j :: map (Store (index_at size i j))
                  (seqZ 0 (cell_steps size iterations i j)).

Definition row_events (size iterations i : Z) : list event :=
  Row i :: (seqZ 0 size ≫= cell_events size iterations i).

Definition grid_events (size iterations : Z) : list event :=
  seqZ 0 size ≫= row_events size iterations.

(** The values stored at offset [k], in order. *)
Definition stores_at (k : Z) (evs : list event) : list Z :=
  omap (fun e => match e with
                 | Store index n => if decide (index = k) then Some n else None
                 | _ => None
                 end) evs.

(** ** The call from the notebook *)

Inductive error : Type := InvalidArgument.

Inductive outcome : Type :=
| Returns (st : state)
| Raises (e : error).

(** [mandelbrot(size, iterations, col)] through ctypes, with
    [restype = None]: the C function has type [void] and a single exit, the
    end of its body. *)
Definition call (size iterations : Z) (st : state) : outcome :=
  Returns (mandelbrot size iterations st).

(** ** Buffers *)

(** The memory [m] holds an array of [len] elements at the offsets
    [0 .. len - 1]. *)
Definition buffer (len : Z) (m : gmap Z Z) : Prop :=
  forall k, 0 <= k < len -> is_Some (m !! k).

(** An array of [len] elements, all equal to [v]. *)
Definition filled (len v : Z) : gmap Z Z :=
  list_to_map ((fun k => (k, v)) <$> seqZ 0 len).

(** ** What the specification says of a call

    Each property is stated for a call with the arguments [size] and
    [iterations] on the memory [m], with an empty log, so that the log of
    the final state is the log of the call. *)

(** Every element of the buffer lies in [[0, iterations)]. *)
Definition elements_in_range (size iterations : Z) (m : gmap Z Z) : Prop :=
  forall k, 0 <= k < size * size ->
    exists n, col (mandelbrot size iterations (State m [])) !! k = Some n /\
              0 <= n < iterations.

(** Every element of the buffer is written by the call. *)
Definition every_element_written (size iterations : Z) (m : gmap Z Z) : Prop :=
  forall k, 0 <= k < size * size ->
    exists n, Store k n ∈ log (mandelbrot size iterations (State m [])).

(** With [iterations = 1] every element is [0]. *)
Definition all_zero (size : Z) (m : gmap Z Z) : Prop :=
  forall k, 0 <= k < size * size ->
    col (mandelbrot size 1 (State m [])) !! k = Some 0.

(** Two calls leave the same buffer, whatever the memories held before. *)
Definition same_output (size iterations : Z) (m1 m2 : gmap Z Z) : Prop :=
  forall k, 0 <= k < size * size ->
    col (mandelbrot size iterations (State m1 [])) !! k =
    col (mandelbrot size iterations (State m2 [])) !! k.

(** Every access to a buffer of [len] elements is a store at
    [i * size + j] for a cell [(i, j)] of the grid, inside the buffer. *)
Definition stores_in_bounds (size iterations len : Z) (m : gmap Z Z) : Prop :=
  forall e, e ∈ log (mandelbrot size iterations (State m [])) ->
    match e with
    | Store index n =>
        (exists i j, 0 <= i < size /\ 0 <= j < size /\ index = i * size + j) /\
        0 <= index < size * size /\ index < len
    | _ => True
    end.

(** Every element of the buffer is stored to exactly once. *)
Definition written_once (size iterations : Z) (m : gmap Z Z) : Prop :=
  forall k, 0 <= k < size * size ->
    length (stores_at k (log (mandelbrot size iterations (State m [])))) = 1%nat.

(** No two cells of the grid have the same index. *)
Definition no_alias (size : Z) : Prop :=
  forall i j i' j',
    0 <= i < size -> 0 <= j < size -> 0 <= i' < size -> 0 <= j' < size ->
    index_at size i j = index_at size i' j' -> i = i' /\ j = j'.

(** The call fails with [InvalidArgument]. *)
Definition rejected (size iterations : Z) (m : gmap Z Z) : Prop :=
  call size iterations (State m []) = Raises InvalidArgument.

(** The call returns, has stored nothing, and has entered neither grid
    loop. *)
Definition returns_at_once (size iterations : Z) (m : gmap Z Z) : Prop :=
  call size iterations (State m []) = Returns (State m []).

(** The events of a grid whose cells take no step: the rows and the cells
    are entered, nothing is stored. *)
Definition idle_events (size : Z) : list event :=
  seqZ 0 size ≫= (fun i => Row i :: map (Cell i) (seqZ 0 size)).

(** ** Overflow of the index

    [index = i * size + j] is evaluated in [int].  When the exact value of
    the product or of the sum is no [int], the evaluation overflows, which
    C leaves undefined; this file follows the reading in which the 32-bit
    machine operation wraps around ([index_at]). *)

(** The evaluation of [i * size + j] in [int] overflows. *)
Definition index_overflows (size i j : Z) : Prop :=
  ~ (Int.in_range (i * size) /\ Int.in_range (i * size + j)).

(** The call enters the cell [(i, j)], where [index] is evaluated, and that
    evaluation overflows. *)
Definition overflow_reached (size iterations : Z) (m : gmap Z Z) (i j : Z)
    : Prop :=
  Cell i j ∈ log (mandelbrot size iterations (State m [])) /\
  index_overflows size i j.

(** ** The reference algorithm of the specification

    For one cell: [z0 = 0.0], [z1 = 0.0], [result = 0]; for [n] in
    [[0, iterations)], with [z0_sq = z0*z0] and [z1_sq = z1*z1]: stop if
    [z0_sq + z1_sq > 100.0]; else [z1_new = 2*z0*z1 + cy],
    [z0 = z0_sq - z1_sq + cx], [z1 = z1_new], [result = n].  Its [n] is a
    mathematical integer.  The loop returns [(z0, z1, result)]. *)
Fixpoint reference_loop (fuel : nat) (iterations : Z) (cx cy : float)
    (n : Z) (z0 z1 : float) (result : Z) : float * float * Z :=
  match fuel with
  | O => (z0, z1, result)
  | S fuel' =>
      if n <? iterations then
        let z0_sq := (z0 * z0)%float in
        let z1_sq := (z1 * z1)%float in
        if (100.0 <? z0_sq + z1_sq)%float then (z0, z1, result)
        else
          let z1_new := (2 * z0 * z1 + cy)%float in
          let z0' := (z0_sq - z1_sq + cx)%float in
          let z1' := z1_new in
          reference_loop fuel' iterations cx cy (n + 1) z0' z1' n
      else (z0, z1, result)
  end.

(** [cy = -1.5 + (i / size) * 3.0], [cx = -2.0 + (j / size) * 3.0]. *)
Definition reference_cell (size iterations i j : Z) : float * float * Z :=
  let cy := (-1.5 + (double_of_int i / double_of_int size) * 3.0)%float in
  let cx := (-2.0 + (double_of_int j / double_of_int size) * 3.0)%float in
  reference_loop (Z.to_nat iterations) iterations cx cy 0 0.0 0.0 0.

(** The pairs [(z0, z1)] that a cell goes through: the one it is left
    with by a budget of [0], [1], ... up to [iterations] steps. *)
Definition reference_orbit (size iterations i j : Z) : list (float * float) :=
  (fun m => (reference_cell size m i j).1) <$> seqZ 0 (iterations + 1).

Definition cell_orbit (size iterations i j : Z) : list (float * float) :=
  (fun m => ((cell_locals size m i j).1.2, (cell_locals size m i j).2))
    <$> seqZ 0 (iterations + 1).

(** The value that the cell [(i, j)] leaves in [col[index]]. *)
Definition cell_recorded (size iterations i j : Z) (st : state) : option Z :=
  col (cell size iterations i (cy_at size i) j st).2 !! index_at size i j.

(** ** The iterates of a point *)

(** The simultaneous update of [(z0, z1)], from the values before it. *)
Definition update (cx cy : float) (z : float * float) : float * float :=
  (z.1 * z.1 - z.2 * z.2 + cx, 2 * z.1 * z.2 + cy)%float.

Fixpoint iterate (k : nat) (cx cy : float) : float * float :=
  match k with
  | O => (0.0, 0.0)%float
  | S k' => update cx cy (iterate k' cx cy)
  end.

(** [z0^2 + z1^2 > 100.0]. *)
Definition escaped (z : float * float) : bool :=
  (100.0 <? z.1 * z.1 + z.2 * z.2)%float.

(** The iterate of the cell [(i, j)] at the step [n]. *)
Definition iterate_at (size i j n : Z) : float * float :=
  iterate (Z.to_nat n) (cx_at size j) (cy_at size i).

(** The value at the index [i * size + j] after a call, and what the
    specification says of it: [iterations - 1] when the iterate of the cell
    escapes at no step below [iterations], and [n - 1] when it first
    escapes at a step [n > 0]. *)
Definition recorded_last_step (size iterations i j : Z) (m : gmap Z Z) : Prop :=
  let v := col (mandelbrot size iterations (State m [])) !! (i * size + j) in
  ((forall n, 0 <= n < iterations -> escaped (iterate_at size i j n) = false) ->
   v = Some (iterations - 1)) /\
  (forall n, 0 < n < iterations ->
     (forall k, 0 <= k < n -> escaped (iterate_at size i j k) = false) ->
     escaped (iterate_at size i j n) = true ->
     v = Some (n - 1)).

(** No NaN. *)
Definition nonnan (x : float) : Prop := Prim2SF x <> S754_nan.

(** ** Doubles through their specification

    The primitive operations on [float] are specified by [SpecFloat] on
    [spec_float], for [prec = 53] and [emax = 1024].  The classes below
    are what the proofs follow through a step of the iteration. *)

(** Zero or finite, of a magnitude (digits plus exponent) of at most [K]:
    the absolute value is below [2 ^ K]. *)
Definition fin_le (K : Z) (x : spec_float) : Prop :=
  match x with
  | S754_zero _ => True
  | S754_finite _ m e => Zdigits2 (Z.pos m) + e <= K
  | _ => False
  end.

Definition is_fin (x : spec_float) : Prop :=
  match x with
  | S754_zero _ | S754_finite _ _ _ => True
  | _ => False
  end.

(** Not a NaN and not negative: the sign bit is clear. *)
Definition sign_clear (x : spec_float) : Prop :=
  match x with
  | S754_nan => False
  | S754_zero s | S754_infinity s | S754_finite s _ _ => s = false
  end.

(** A mantissa of at most 53 digits, as every binary64 number has. *)
Definition short (x : spec_float) : Prop :=
  match x with
  | S754_finite _ m _ => Zdigits2 (Z.pos m) <= 53
  | _ => True
  end.

(** The double [100]. *)
Definition SF100 : spec_float := S754_finite false 7036874417766400 (-46).

(** [simpl] turns [Zdigits2 (Z.pos m)] into [Z.pos (digits2_pos m)]; this
    turns it back, so that [lia] sees one atom. *)
Ltac fold_digits :=
  repeat match goal with
  | |- context [Z.pos (digits2_pos ?m)] =>
      change (Z.pos (digits2_pos m)) with (Zdigits2 (Z.pos m))
  | H : context [Z.pos (digits2_pos ?m)] |- _ =>
      change (Z.pos (digits2_pos m)) with (Zdigits2 (Z.pos m)) in H
  end.

(** ** The stores of a log *)

(** The stores of a log, each as the pair of its index and its value, in
    order. *)
Definition all_stores (evs : list event) : list (Z * Z) :=
  omap (fun e => match e with
                 | Store index n => Some (index, n)
                 | _ => None
                 end) evs.

(** * Properties *)

(** ** Machine integers *)

Lemma wrap_in_range x : Int.in_range (Int.wrap x).
Proof.
  unfold Int.in_range, Int.wrap, Int.min_signed, Int.max_signed,
    Int.half_modulus, Int.modulus.
  pose proof (Z.mod_pos_bound (x + 2147483648) 4294967296). lia.
Qed.

Lemma wrap_small x : Int.in_range x -> Int.wrap x = x.
Proof.
  unfold Int.in_range, Int.wrap, Int.min_signed, Int.max_signed,
    Int.half_modulus, Int.modulus.
  intros H. rewrite Z.mod_small; lia.
Qed.

Lemma incr_below (k bound : Z) :
  Int.in_range bound -> 0 <= k < bound -> Int.add k 1 = k + 1.
Proof.
  unfold Int.add, Int.in_range, Int.min_signed, Int.max_signed. intros Hb Hk.
  apply wrap_small. unfold Int.in_range, Int.min_signed, Int.max_signed. lia.
Qed.

(** ** Runs of events *)

Lemma run_nil st : run [] st = st.
Proof. destruct st. unfold run. simpl. by rewrite app_nil_r. Qed.

Lemma run_app evs1 evs2 st : run (evs1 ++ evs2) st = run evs2 (run evs1 st).
Proof. unfold run. simpl. by rewrite foldl_app, app_assoc. Qed.

Lemma run_cons e evs st : run (e :: evs) st = run evs (run [e] st).
Proof. apply (run_app [e] evs). Qed.

Lemma store_run index n st : store index n st = run [Store index n] st.
Proof. reflexivity. Qed.

Lemma emit_Row i st : emit (Row i) st = run [Row i] st.
Proof. reflexivity. Qed.

Lemma emit_Cell i j st : emit (Cell i j) st = run [Cell i j] st.
Proof. reflexivity. Qed.

(** ** The loops *)

(** The locals an [n] loop ends with depend neither on the state nor on
    the index it stores at. *)
Lemma n_loop_locals fuel iterations index index' cx cy n z0 z1 st st' :
  (n_loop fuel iterations index cx cy n z0 z1 st).1 =
  (n_loop fuel iterations index' cx cy n z0 z1 st').1.
Proof.
  revert n z0 z1 st st'.
  induction fuel as [|fuel IH]; intros n z0 z1 st st'; simpl; [done|].
  destruct (n <? iterations); [|done].
  destruct (_ <=? _)%float; [|done].
  apply IH.
Qed.

(** The [n] loop stores [n], [n+1], ... at [index], up to the value of [n]
    it ends with, and does nothing else. *)
Lemma n_loop_run fuel iterations index cx cy n z0 z1 st :
  Int.in_range iterations -> 0 <= n ->
  let r := n_loop fuel iterations index cx cy n z0 z1 st in
  n <= r.1.1.1 <= Z.max n iterations /\
  r.2 = run (map (Store index) (seqZ n (r.1.1.1 - n))) st.
Proof.
  revert n z0 z1 st.
  induction fuel as [|fuel IH]; intros n z0 z1 st Hit Hn; simpl.
  - rewrite Z.sub_diag. simpl. rewrite run_nil. split; [lia|done].
  - destruct (Z.ltb_spec n iterations) as [Hlt|Hge].
    2:{ simpl. rewrite Z.sub_diag. simpl. rewrite run_nil. split; [lia|done]. }
    destruct (_ <=? _)%float.
    2:{ simpl. rewrite Z.sub_diag. simpl. rewrite run_nil. split; [lia|done]. }
    rewrite (incr_below n iterations) by (done || lia).
    specialize (IH (n + 1) (z0 * z0 - z1 * z1 + cx)%float
                  (2 * z0 * z1 + cy)%float (store index n st) Hit).
    destruct IH as [Hb Hr]; [lia|].
    split; [lia|].
    rewrite Hr.
    rewrite (seqZ_cons n) by lia. simpl.
    rewrite (run_cons (Store index n)). rewrite store_run.
    do 3 f_equal. lia.
Qed.

Lemma cell_run size iterations i j st :
  Int.in_range iterations ->
  cell size iterations i (cy_at size i) j st =
  (cell_locals size iterations i j, run (cell_events size iterations i j) st).
Proof.
  intros Hit. unfold cell_events, cell_steps, cell_locals, cell.
  set (r0 := n_loop _ _ _ _ _ _ _ _ (emit (Cell i j) empty_state)).
  set (r := n_loop _ _ _ _ _ _ _ _ (emit (Cell i j) st)).
  assert (Hloc : r.1 = r0.1) by apply n_loop_locals.
  destruct (n_loop_run (Z.to_nat iterations) iterations (index_at size i j)
              (cx_at size j) (cy_at size i) 0 0 0 (emit (Cell i j) st) Hit)
    as [_ Hr]; [lia|].
  fold r in Hr. rewrite Z.sub_0_r, Hloc, emit_Cell, <- run_cons in Hr.
  rewrite <- Hr, <- Hloc. by destruct r.
Qed.

Lemma j_loop_run fuel size iterations i j st :
  Int.in_range size -> Int.in_range iterations ->
  0 <= j -> (Z.to_nat (size - j) <= fuel)%nat ->
  j_loop fuel size iterations i (cy_at size i) j st =
  run (seqZ j (size - j) ≫= cell_events size iterations i) st.
Proof.
  intros Hsz Hit. revert j st.
  induction fuel as [|fuel IH]; intros j st Hj Hfuel; simpl.
  - rewrite seqZ_nil by lia. symmetry. apply run_nil.
  - destruct (Z.ltb_spec j size) as [Hlt|Hge].
    2:{ rewrite seqZ_nil by lia. symmetry. apply run_nil. }
    rewrite cell_run by done. destruct (cell_locals _ _ _ _) as [[? ?] ?].
    rewrite (incr_below j size) by (done || lia).
    rewrite IH by lia.
    rewrite (seqZ_cons j) by lia. rewrite bind_cons, run_app.
    do 3 f_equal; lia.
Qed.

Lemma row_run size iterations i st :
  Int.in_range size -> Int.in_range iterations ->
  row size iterations i st = run (row_events size iterations i) st.
Proof.
  intros Hsz Hit. unfold row, row_events.
  rewrite j_loop_run by (done || lia).
  rewrite emit_Row, <- run_cons. by rewrite Z.sub_0_r.
Qed.

Lemma i_loop_run fuel size iterations i st :
  Int.in_range size -> Int.in_range iterations ->
  0 <= i -> (Z.to_nat (size - i) <= fuel)%nat ->
  i_loop fuel size iterations i st =
  run (seqZ i (size - i) ≫= row_events size iterations) st.
Proof.
  intros Hsz Hit. revert i st.
  induction fuel as [|fuel IH]; intros i st Hi Hfuel; simpl.
  - rewrite seqZ_nil by lia. symmetry. apply run_nil.
  - destruct (Z.ltb_spec i size) as [Hlt|Hge].
    2:{ rewrite seqZ_nil by lia. symmetry. apply run_nil. }
    rewrite row_run by done.
    rewrite (incr_below i size) by (done || lia).
    rewrite IH by lia.
    rewrite (seqZ_cons i) by lia. rewrite bind_cons, run_app.
    do 3 f_equal; lia.
Qed.

(** A call of [mandelbrot] is the run of the events of its grid. *)
Lemma mandelbrot_run size iterations st :
  Int.in_range size -> Int.in_range iterations ->
  mandelbrot size iterations st = run (grid_events size iterations) st.
Proof.
  intros Hsz Hit. unfold mandelbrot, grid_events.
  rewrite i_loop_run by (done || lia). by rewrite Z.sub_0_r.
Qed.

(** The fuel the loops are given is enough: with more of it they do the
    same. *)
Lemma n_loop_fuel fuel iterations index cx cy n z0 z1 st :
  Int.in_range iterations -> 0 <= n ->
  (Z.to_nat (iterations - n) <= fuel)%nat ->
  n_loop fuel iterations index cx cy n z0 z1 st =
  n_loop (Z.to_nat (iterations - n)) iterations index cx cy n z0 z1 st.
Proof.
  intros Hit. revert n z0 z1 st.
  induction fuel as [|fuel IH]; intros n z0 z1 st Hn Hfuel.
  - by replace (Z.to_nat (iterations - n)) with 0%nat by lia.
  - simpl. destruct (Z.ltb_spec n iterations) as [Hlt|Hge].
    + replace (Z.to_nat (iterations - n))
        with (S (Z.to_nat (iterations - (n + 1)))) by lia.
      simpl. destruct (Z.ltb_spec n iterations) as [_|?]; [|lia].
      destruct (_ <=? _)%float; [|done].
      rewrite (incr_below n iterations) by (done || lia).
      apply IH; lia.
    + by replace (Z.to_nat (iterations - n)) with 0%nat by lia.
Qed.

Lemma j_loop_fuel fuel size iterations i st :
  Int.in_range size -> Int.in_range iterations ->
  (Z.to_nat size <= fuel)%nat ->
  j_loop fuel size iterations i (cy_at size i) 0 st =
  j_loop (Z.to_nat size) size iterations i (cy_at size i) 0 st.
Proof.
  intros Hsz Hit Hfuel. by rewrite !j_loop_run by (done || lia).
Qed.

Lemma i_loop_fuel fuel size iterations st :
  Int.in_range size -> Int.in_range iterations ->
  (Z.to_nat size <= fuel)%nat ->
  i_loop fuel size iterations 0 st = mandelbrot size iterations st.
Proof.
  intros Hsz Hit Hfuel. rewrite mandelbrot_run by done.
  rewrite i_loop_run by (done || lia). by rewrite Z.sub_0_r.
Qed.

(** ** Lists of events *)

Lemma bind_all_nil {A B} (f : A -> list B) (l : list A) :
  (forall x, x ∈ l -> f x = []) -> l ≫= f = [].
Proof.
  induction l as [|x l IH]; intros H; [done|].
  rewrite bind_cons, H, IH; [done| |apply elem_of_cons; by left].
  intros y Hy. apply H, elem_of_cons. by right.
Qed.

Lemma bind_seqZ_single {A} (f : Z -> list A) (m n a : Z) :
  m <= a < m + n ->
  (forall x, m <= x < m + n -> x <> a -> f x = []) ->
  seqZ m n ≫= f = f a.
Proof.
  intros Ha Hnil.
  replace n with ((a - m) + (1 + (n - (a - m) - 1))) by lia.
  rewrite seqZ_app, (seqZ_app _ 1) by lia.
  rewrite !bind_app.
  rewrite (bind_all_nil f (seqZ m _)), (bind_all_nil f (seqZ (m + (a - m) + 1) _)).
  - replace (m + (a - m)) with a by lia.
    change (seqZ a 1) with [a]. rewrite bind_cons. simpl.
    by rewrite !app_nil_r.
  - intros x Hx%elem_of_seqZ. apply Hnil; lia.
  - intros x Hx%elem_of_seqZ. apply Hnil; lia.
Qed.

Lemma stores_at_app k evs1 evs2 :
  stores_at k (evs1 ++ evs2) = stores_at k evs1 ++ stores_at k evs2.
Proof. apply omap_app. Qed.

Lemma stores_at_bind {A} k (f : A -> list event) (l : list A) :
  stores_at k (l ≫= f) = l ≫= (fun x => stores_at k (f x)).
Proof.
  induction l as [|x l IH]; [done|].
  by rewrite !bind_cons, stores_at_app, IH.
Qed.

Lemma stores_at_map_Store k index (l : list Z) :
  stores_at k (map (Store index) l) = if decide (index = k) then l else [].
Proof.
  induction l as [|x l IH]; simpl.
  - by destruct (decide _).
  - unfold stores_at in *. simpl. rewrite IH. by destruct (decide _).
Qed.

(** The memory after a run holds, at each offset, the last value the run
    stored there, and what it held before when the run stored nothing
    there. *)
Lemma run_lookup evs st k :
  col (run evs st) !! k =
  match last (stores_at k evs) with
  | Some v => Some v
  | None => col st !! k
  end.
Proof.
  unfold run. simpl. generalize (col st). clear st.
  induction evs as [|e evs IH]; intros m; [done|].
  simpl. rewrite IH. destruct e as [i|i j|index n]; try done.
  unfold stores_at. simpl. destruct (decide (index = k)) as [->|Hne].
  - simpl. fold (stores_at k evs). rewrite last_cons.
    destruct (last _); [done|]. apply lookup_insert_eq.
  - fold (stores_at k evs). destruct (last _); [done|].
    by apply lookup_insert_ne.
Qed.

Lemma stores_at_cell k size iterations i j :
  stores_at k (cell_events size iterations i j) =
  if decide (index_at size i j = k)
  then seqZ 0 (cell_steps size iterations i j) else [].
Proof. unfold cell_events. apply (stores_at_map_Store k). Qed.

Lemma stores_at_grid k size iterations :
  stores_at k (grid_events size iterations) =
  seqZ 0 size ≫= (fun i => seqZ 0 size ≫= (fun j =>
    if decide (index_at size i j = k)
    then seqZ 0 (cell_steps size iterations i j) else [])).
Proof.
  unfold grid_events. rewrite stores_at_bind.
  apply list_bind_ext; [|done]. intros i.
  unfold row_events. change (Row i :: ?l) with ([Row i] ++ l).
  rewrite stores_at_app, stores_at_bind. simpl.
  apply list_bind_ext; [|done]. intros j. apply stores_at_cell.
Qed.

(** ** The index of a cell *)

Lemma index_at_in_range size i j : Int.in_range (index_at size i j).
Proof. apply wrap_in_range. Qed.

(** Up to [size = 46340] no product or sum of the index overflows. *)
Lemma index_at_small size i j :
  0 < size <= 46340 -> 0 <= i < size -> 0 <= j < size ->
  index_at size i j = i * size + j.
Proof.
  intros Hsz Hi Hj. unfold index_at, Int.add, Int.mul.
  assert (0 <= i * size <= 46339 * 46340) by nia.
  rewrite (wrap_small (i * size)).
  - apply wrap_small. unfold Int.in_range, Int.min_signed, Int.max_signed. lia.
  - unfold Int.in_range, Int.min_signed, Int.max_signed. lia.
Qed.

Lemma index_at_inj size i j k :
  0 < size <= 46340 -> 0 <= i < size -> 0 <= j < size ->
  index_at size i j = k <-> i = k / size /\ j = k mod size /\ 0 <= k < size * size.
Proof.
  intros Hsz Hi Hj. rewrite index_at_small by done. split.
  - intros <-. rewrite Z.div_add_l, Z.div_small, Z.add_0_r by lia.
    rewrite Z.add_comm, Z.mod_add, Z.mod_small by lia. nia.
  - intros (-> & -> & _). rewrite Z.mul_comm. symmetry. apply Z.div_mod. lia.
Qed.

(** The stores at one offset are those of one cell, while the index
    cannot overflow; outside the grid there is none. *)
Lemma stores_at_grid_small k size iterations :
  0 < size <= 46340 -> 0 <= k < size * size ->
  stores_at k (grid_events size iterations) =
  seqZ 0 (cell_steps size iterations (k / size) (k mod size)).
Proof.
  intros Hsz Hk. rewrite stores_at_grid.
  assert (0 <= k / size < size).
  { split; [apply Z.div_pos; lia|apply Z.div_lt_upper_bound; lia]. }
  assert (0 <= k mod size < size) by (apply Z.mod_pos_bound; lia).
  rewrite (bind_seqZ_single _ 0 size (k / size)) by
    (lia || (intros i ? ?; apply bind_all_nil; intros j ?%elem_of_seqZ;
             destruct (decide _) as [He|]; [|done];
             apply index_at_inj in He; lia)).
  rewrite (bind_seqZ_single _ 0 size (k mod size)) by
    (lia || (intros j ? ?; destruct (decide _) as [He|]; [|done];
             apply index_at_inj in He; lia)).
  destruct (decide _) as [|Hne]; [done|].
  exfalso. apply Hne. apply index_at_inj; lia.
Qed.

Lemma stores_at_grid_outside k size iterations :
  ~ Int.in_range k -> stores_at k (grid_events size iterations) = [].
Proof.
  intros Hk. rewrite stores_at_grid.
  apply bind_all_nil; intros i _. apply bind_all_nil; intros j _.
  destruct (decide _) as [He|]; [|done].
  exfalso. apply Hk. rewrite <- He. apply index_at_in_range.
Qed.

(** ** The number of steps of a cell *)

Lemma cell_steps_bounds size iterations i j :
  Int.in_range iterations ->
  0 <= cell_steps size iterations i j <= Z.max 0 iterations.
Proof.
  intros Hit. unfold cell_steps, cell_locals, cell.
  by apply n_loop_run.
Qed.

(** The step [n = 0] starts from [(0, 0)] and passes the test, so a cell
    takes at least one step when it may take any. *)
Lemma cell_steps_pos size iterations i j :
  Int.in_range iterations -> 0 < iterations ->
  1 <= cell_steps size iterations i j.
Proof.
  intros Hit Hpos. unfold cell_steps, cell_locals, cell.
  replace (Z.to_nat iterations) with (S (Z.to_nat (iterations - 1))) by lia.
  simpl. destruct (Z.ltb_spec 0 iterations) as [_|?]; [|lia].
  change (0 * 0 + 0 * 0 <=? 100)%float with true. cbv iota.
  change (Int.add 0 1) with 1.
  match goal with |- _ <= (n_loop ?f ?it ?ix ?cx ?cy 1 ?z0 ?z1 ?st).1.1.1 =>
    destruct (n_loop_run f it ix cx cy 1 z0 z1 st Hit) as [? _]; lia
  end.
Qed.

Lemma cell_steps_none size iterations i j :
  Int.in_range iterations -> iterations <= 0 ->
  cell_steps size iterations i j = 0.
Proof. intros Hit Hle. pose proof (cell_steps_bounds size iterations i j Hit). lia. Qed.

(** ** The buffer after a call *)

Lemma mandelbrot_log size iterations m :
  Int.in_range size -> Int.in_range iterations ->
  log (mandelbrot size iterations (State m [])) = grid_events size iterations.
Proof. intros Hsz Hit. by rewrite mandelbrot_run. Qed.

Lemma small_in_range size : 0 < size <= 46340 -> Int.in_range size.
Proof. unfold Int.in_range, Int.min_signed, Int.max_signed. lia. Qed.

Lemma last_seqZ m n : 0 < n -> last (seqZ m n) = Some (m + n - 1).
Proof.
  intros Hn. replace n with ((n - 1) + 1) at 1 by lia.
  rewrite seqZ_app by lia. change (seqZ ?a 1) with [a].
  rewrite last_snoc. f_equal. lia.
Qed.

Lemma elem_of_stores_at k v evs : v ∈ stores_at k evs <-> Store k v ∈ evs.
Proof.
  unfold stores_at. rewrite list_elem_of_omap. split.
  - intros ([i|i j|index n] & Hin & He); try done.
    destruct (decide (index = k)) as [->|]; [|done]. by injection He as ->.
  - intros Hin. exists (Store k v). split; [done|].
    by destruct (decide (k = k)).
Qed.

(** While the index cannot overflow, the element [k] ends as the last step
    of the cell [(k / size, k mod size)]. *)
Lemma mandelbrot_lookup_small size iterations st k :
  0 < size <= 46340 -> Int.in_range iterations -> 0 < iterations ->
  0 <= k < size * size ->
  col (mandelbrot size iterations st) !! k =
  Some (cell_steps size iterations (k / size) (k mod size) - 1).
Proof.
  intros Hsz Hit Hpos Hk.
  rewrite mandelbrot_run by (done || by apply small_in_range).
  rewrite run_lookup, stores_at_grid_small by done.
  pose proof (cell_steps_pos size iterations (k / size) (k mod size) Hit Hpos).
  rewrite last_seqZ by lia. f_equal.
Qed.

(** An offset that is no [int] is never stored to. *)
Lemma mandelbrot_lookup_outside size iterations m evs k :
  Int.in_range size -> Int.in_range iterations -> ~ Int.in_range k ->
  col (mandelbrot size iterations (State m evs)) !! k = m !! k.
Proof.
  intros Hsz Hit Hk. rewrite mandelbrot_run by done.
  by rewrite run_lookup, stores_at_grid_outside.
Qed.

(** Every step of every cell of the grid is a store of the call. *)
Lemma store_in_grid size iterations i j v :
  0 <= i < size -> 0 <= j < size ->
  0 <= v < cell_steps size iterations i j ->
  Store (index_at size i j) v ∈ grid_events size iterations.
Proof.
  intros Hi Hj Hv. unfold grid_events.
  apply list_elem_of_bind. exists i. split; [|apply elem_of_seqZ; lia].
  unfold row_events. apply elem_of_cons. right.
  apply list_elem_of_bind. exists j. split; [|apply elem_of_seqZ; lia].
  unfold cell_events. apply elem_of_cons. right.
  apply (list_elem_of_fmap_2 (Store (index_at size i j))).
  apply elem_of_seqZ. lia.
Qed.

(** And the events of the call are no others. *)
Lemma grid_events_inv size iterations e :
  e ∈ grid_events size iterations ->
  match e with
  | Row i => 0 <= i < size
  | Cell i j => 0 <= i < size /\ 0 <= j < size
  | Store index v =>
      exists i j, 0 <= i < size /\ 0 <= j < size /\
                  index = index_at size i j /\
                  0 <= v < cell_steps size iterations i j
  end.
Proof.
  unfold grid_events. intros (i & Hrow & Hi%elem_of_seqZ)%list_elem_of_bind.
  unfold row_events in Hrow. apply elem_of_cons in Hrow as [->|Hcells]; [lia|].
  apply list_elem_of_bind in Hcells as (j & Hcell & Hj%elem_of_seqZ).
  unfold cell_events in Hcell.
  apply elem_of_cons in Hcell as [->|Hst]; [lia|].
  apply (list_elem_of_fmap_1 (Store (index_at size i j))) in Hst
    as (v & -> & Hv%elem_of_seqZ).
  exists i, j. repeat split; lia.
Qed.

Lemma filled_lookup len v k : 0 <= k < len -> filled len v !! k = Some v.
Proof.
  intros Hk. unfold filled. apply elem_of_list_to_map_1.
  - replace (((fun k : Z => (k, v)) <$> seqZ 0 len).*1) with (seqZ 0 len);
      [apply NoDup_seqZ|].
    induction (seqZ 0 len) as [|x l IH]; [done|]. simpl. by f_equal.
  - apply (list_elem_of_fmap_2' _ _ k); [|done]. apply elem_of_seqZ. lia.
Qed.

Lemma filled_buffer len v : buffer len (filled len v).
Proof. intros k Hk. rewrite filled_lookup by done. by eexists. Qed.

(** For [size = 46341] the last cell has the index [2147488280], which is
    no [int]: the element at that offset of the buffer is never stored to,
    and the store of the last cell lands before the buffer. *)
Lemma last_cell_46341 :
  0 <= 2147488280 < 46341 * 46341 /\
  ~ Int.in_range 2147488280 /\
  index_at 46341 46340 46340 = -2147479016.
Proof.
  split; [lia|]. split; [|by vm_compute].
  unfold Int.in_range, Int.min_signed, Int.max_signed. lia.
Qed.

Lemma in_range_46341 : Int.in_range 46341.
Proof. unfold Int.in_range, Int.min_signed, Int.max_signed. lia. Qed.

Lemma in_range_1 : Int.in_range 1.
Proof. unfold Int.in_range, Int.min_signed, Int.max_signed. lia. Qed.

(** From [size = 46341] on the index of the last cell is no [int], and the
    last element of the buffer is never stored to: the bound [46340] of the
    statements below is the largest possible. *)
Lemma last_element_unwritten size iterations m :
  Int.in_range size -> Int.in_range iterations -> 46340 < size ->
  col (mandelbrot size iterations (State m [])) !! (size * size - 1) =
  m !! (size * size - 1).
Proof.
  intros Hsz Hit Hlarge. apply mandelbrot_lookup_outside; [done..|].
  unfold Int.in_range, Int.min_signed, Int.max_signed. nia.
Qed.

(** Every cell of the grid is entered. *)
Lemma cell_in_grid size iterations i j :
  0 <= i < size -> 0 <= j < size -> Cell i j ∈ grid_events size iterations.
Proof.
  intros Hi Hj. unfold grid_events.
  apply list_elem_of_bind. exists i. split; [|apply elem_of_seqZ; lia].
  unfold row_events. apply elem_of_cons. right.
  apply list_elem_of_bind. exists j. split; [|apply elem_of_seqZ; lia].
  unfold cell_events. apply elem_of_cons. by left.
Qed.

(** With [size = 46341] the call enters the cell [(46340, 46340)], and
    there [i * size = 2147441940] is an [int] but [i * size + j =
    2147488280] is not: the evaluation of [index] overflows. *)
Lemma overflow_reached_46341 m : overflow_reached 46341 1 m 46340 46340.
Proof.
  split.
  - rewrite (mandelbrot_log 46341 1 m in_range_46341 in_range_1).
    apply (cell_in_grid 46341 1 46340 46340); lia.
  - unfold index_overflows, Int.in_range, Int.min_signed, Int.max_signed.
    lia.
Qed.

(** ** Calls that take no step *)

Lemma bind_singleton {A B} (f : A -> B) (l : list A) :
  l ≫= (fun x => [f x]) = f <$> l.
Proof. induction l as [|x l IH]; [done|]. rewrite bind_cons, IH. done. Qed.

Lemma grid_events_idle size iterations :
  Int.in_range iterations -> iterations <= 0 ->
  grid_events size iterations = idle_events size.
Proof.
  intros Hit Hle. unfold grid_events, idle_events, row_events.
  apply list_bind_ext; [|done]. intros i. f_equal.
  rewrite <- (bind_singleton (Cell i)).
  apply list_bind_ext; [|done]. intros j.
  unfold cell_events. by rewrite cell_steps_none.
Qed.

Lemma grid_events_empty size iterations : size <= 0 -> grid_events size iterations = [].
Proof. intros Hle. unfold grid_events. by rewrite seqZ_nil. Qed.

Lemma stores_at_idle k size : stores_at k (idle_events size) = [].
Proof.
  unfold idle_events. rewrite stores_at_bind.
  apply bind_all_nil. intros i _.
  change (Row i :: ?l) with ([Row i] ++ l). rewrite stores_at_app. simpl.
  induction (seqZ 0 size) as [|j l IH]; [done|]. apply IH.
Qed.

Lemma run_no_store evs st :
  (forall k, stores_at k evs = []) -> col (run evs st) = col st.
Proof.
  intros Hnone. apply map_eq. intros k. by rewrite run_lookup, Hnone.
Qed.

(** A call with [size <= 0] or [iterations <= 0] changes no element of the
    memory and stores nothing; its log is empty when [size <= 0], and the
    log of an idle grid otherwise. *)
Lemma mandelbrot_idle size iterations m :
  Int.in_range size -> Int.in_range iterations ->
  size <= 0 \/ iterations <= 0 ->
  col (mandelbrot size iterations (State m [])) = m /\
  (forall index n, Store index n ∉ log (mandelbrot size iterations (State m []))) /\
  (size <= 0 -> log (mandelbrot size iterations (State m [])) = []) /\
  (0 < size -> log (mandelbrot size iterations (State m [])) = idle_events size).
Proof.
  intros Hsz Hit Hle. rewrite mandelbrot_run by done.
  destruct (Z.le_gt_cases size 0) as [Hs|Hs].
  - rewrite grid_events_empty by done. rewrite run_nil. cbn [col log].
    split; [done|]. split; [|split; [done|lia]].
    intros index n Hin. by apply not_elem_of_nil in Hin.
  - rewrite grid_events_idle by (done || lia).
    split; [apply (run_no_store _ (State m [])); intros k; apply stores_at_idle|].
    cbn [log run app]. split; [|split; [lia|done]].
    intros index n Hin%elem_of_stores_at.
    rewrite stores_at_idle in Hin. by apply not_elem_of_nil in Hin.
Qed.

(** While the index cannot overflow, the step [n = 0] of every cell stores
    [0] at its element of the buffer. *)
Lemma store_zero_small size iterations m k :
  0 < size <= 46340 -> Int.in_range iterations -> 0 < iterations ->
  0 <= k < size * size ->
  Store k 0 ∈ log (mandelbrot size iterations (State m [])).
Proof.
  intros Hsz Hit Hpos Hk.
  rewrite mandelbrot_log by (done || by apply small_in_range).
  apply elem_of_stores_at. rewrite stores_at_grid_small by done.
  pose proof (cell_steps_pos size iterations (k / size) (k mod size) Hit Hpos).
  apply elem_of_seqZ. lia.
Qed.

(** ** The claims about the buffer *)

(** While the index cannot overflow, for every [size] from [1] to [46340]
    and every [iterations > 0], after the call every element of the buffer,
    at the offsets [0 .. size*size - 1], holds an integer [n] with
    [0 <= n < iterations]. *)
Theorem elements_in_range_small size iterations m :
  0 < size <= 46340 -> Int.in_range iterations -> 0 < iterations ->
  elements_in_range size iterations m.
Proof.
  intros Hsz Hit Hpos k Hk.
  exists (cell_steps size iterations (k / size) (k mod size) - 1).
  split; [by apply mandelbrot_lookup_small|].
  pose proof (cell_steps_pos size iterations (k / size) (k mod size) Hit Hpos).
  pose proof (cell_steps_bounds size iterations (k / size) (k mod size) Hit).
  lia.
Qed.

Lemma elements_in_range_small_witness : elements_in_range 2 3 ∅.
Proof.
  apply (elements_in_range_small 2 3 ∅);
    unfold Int.in_range, Int.min_signed, Int.max_signed; lia.
Defined.

(** Claim C2, every element of the buffer lies in [[0, iterations)] after
    the call, is broken by the code at [size = 46341], [iterations = 1]:
    the call enters the cell [(46340, 46340)], where the evaluation of
    [index = i * size + j] in [int] overflows.  Where the overflow wraps
    around, the element at the offset [2147488280] of a buffer of
    [46341 * 46341] elements, all [-1] before the call, is [-1] after it. *)
Lemma elements_in_range_46341 :
  overflow_reached 46341 1 (filled (46341 * 46341) (-1)) 46340 46340 /\
  buffer (46341 * 46341) (filled (46341 * 46341) (-1)) /\
  ~ elements_in_range 46341 1 (filled (46341 * 46341) (-1)).
Proof.
  split; [apply (overflow_reached_46341 (filled (46341 * 46341) (-1)))|].
  split; [apply filled_buffer|]. intros H.
  destruct last_cell_46341 as (Hk & Hout & _).
  destruct (H 2147488280 Hk) as (n & Hn & Hrange).
  rewrite (mandelbrot_lookup_outside 46341 1 (filled (46341 * 46341) (-1)) []
             2147488280 in_range_46341 in_range_1 Hout) in Hn.
  rewrite filled_lookup in Hn by done.
  injection Hn as <-. lia.
Qed.

(** While the index cannot overflow, for every [size] from [1] to [46340]
    and every [iterations > 0], every element of the buffer is stored to by the call:
    the step [n = 0] of its cell starts from [(0, 0)], passes the test and
    stores [0]. *)
Theorem every_element_written_small size iterations m :
  0 < size <= 46340 -> Int.in_range iterations -> 0 < iterations ->
  every_element_written size iterations m /\
  forall k, 0 <= k < size * size ->
    Store k 0 ∈ log (mandelbrot size iterations (State m [])).
Proof.
  intros Hsz Hit Hpos. split.
  - intros k Hk. exists 0. by apply store_zero_small.
  - intros k Hk. by apply store_zero_small.
Qed.

Lemma every_element_written_small_witness :
  every_element_written 2 3 ∅ /\
  forall k, 0 <= k < 2 * 2 -> Store k 0 ∈ log (mandelbrot 2 3 (State ∅ [])).
Proof.
  apply (every_element_written_small 2 3 ∅);
    unfold Int.in_range, Int.min_signed, Int.max_signed; lia.
Defined.

(** Claim C5, every element of the buffer is written by the call, is
    broken by the code at [size = 46341], [iterations = 1]: the call enters
    the cell [(46340, 46340)], where the evaluation of
    [index = i * size + j] in [int] overflows.  Where the overflow wraps
    around, the call never stores at the offset [2147488280] of the
    buffer. *)
Lemma every_element_written_46341 :
  overflow_reached 46341 1 (filled (46341 * 46341) (-1)) 46340 46340 /\
  buffer (46341 * 46341) (filled (46341 * 46341) (-1)) /\
  ~ every_element_written 46341 1 (filled (46341 * 46341) (-1)).
Proof.
  split; [apply (overflow_reached_46341 (filled (46341 * 46341) (-1)))|].
  split; [apply filled_buffer|]. intros H.
  destruct last_cell_46341 as (Hk & Hout & _).
  destruct (H 2147488280 Hk) as (n & Hn).
  rewrite (mandelbrot_log 46341 1 (filled (46341 * 46341) (-1))
             in_range_46341 in_range_1) in Hn.
  apply (elem_of_stores_at 2147488280 n) in Hn.
  rewrite (stores_at_grid_outside 2147488280 46341 1 Hout) in Hn.
  by apply not_elem_of_nil in Hn.
Qed.

(** While the index cannot overflow, for every [size] from [1] to [46340],
    a call with [iterations = 1] leaves [0] in every element of the
    buffer. *)
Theorem all_zero_small size m : 0 < size <= 46340 -> all_zero size m.
Proof.
  intros Hsz k Hk.
  rewrite mandelbrot_lookup_small by (done || apply in_range_1).
  pose proof (cell_steps_pos size 1 (k / size) (k mod size) in_range_1).
  pose proof (cell_steps_bounds size 1 (k / size) (k mod size) in_range_1).
  f_equal; lia.
Qed.

Lemma all_zero_small_witness : all_zero 3 ∅.
Proof. apply (all_zero_small 3 ∅). lia. Defined.

(** Claim C6, a call with [iterations = 1] leaves [0] in every element, is
    broken by the code at [size = 46341]: the call enters the cell
    [(46340, 46340)], where the evaluation of [index = i * size + j] in
    [int] overflows.  Where the overflow wraps around, the element at the
    offset [2147488280] keeps the [-1] it held. *)
Lemma all_zero_46341 :
  overflow_reached 46341 1 (filled (46341 * 46341) (-1)) 46340 46340 /\
  buffer (46341 * 46341) (filled (46341 * 46341) (-1)) /\
  ~ all_zero 46341 (filled (46341 * 46341) (-1)).
Proof.
  split; [apply (overflow_reached_46341 (filled (46341 * 46341) (-1)))|].
  split; [apply filled_buffer|]. intros H.
  destruct last_cell_46341 as (Hk & Hout & _).
  specialize (H 2147488280 Hk).
  rewrite (mandelbrot_lookup_outside 46341 1 (filled (46341 * 46341) (-1)) []
             2147488280 in_range_46341 in_range_1 Hout) in H.
  rewrite filled_lookup in H by done. discriminate H.
Qed.

(** While the index cannot overflow, for every [size] from [1] to [46340]
    and every [iterations > 0], two calls with the same [(size, iterations)] leave
    the same buffer, whatever the two memories held before: each element is
    a function of [(size, iterations)] and its offset alone, and the two
    calls have the same log. *)
Theorem same_output_small size iterations m1 m2 :
  0 < size <= 46340 -> Int.in_range iterations -> 0 < iterations ->
  same_output size iterations m1 m2 /\
  log (mandelbrot size iterations (State m1 [])) =
  log (mandelbrot size iterations (State m2 [])).
Proof.
  intros Hsz Hit Hpos. split.
  - intros k Hk. by rewrite !mandelbrot_lookup_small.
  - by rewrite !mandelbrot_log by (done || by apply small_in_range).
Qed.

Lemma same_output_small_witness :
  same_output 2 3 ∅ (filled 4 7) /\
  log (mandelbrot 2 3 (State ∅ [])) = log (mandelbrot 2 3 (State (filled 4 7) [])).
Proof.
  apply (same_output_small 2 3 ∅ (filled 4 7));
    unfold Int.in_range, Int.min_signed, Int.max_signed; lia.
Defined.

(** Claim C7, two calls with the same arguments leave the same buffer
    whatever it held before, is broken by the code at [size = 46341],
    [iterations = 1]: each call enters the cell [(46340, 46340)], where
    the evaluation of [index = i * size + j] in [int] overflows.  Where
    the overflow wraps around, two buffers that differ at the offset
    [2147488280] before the call differ there after it. *)
Lemma same_output_46341 :
  overflow_reached 46341 1 (filled (46341 * 46341) 0) 46340 46340 /\
  overflow_reached 46341 1 (filled (46341 * 46341) 1) 46340 46340 /\
  buffer (46341 * 46341) (filled (46341 * 46341) 0) /\
  buffer (46341 * 46341) (filled (46341 * 46341) 1) /\
  ~ same_output 46341 1 (filled (46341 * 46341) 0) (filled (46341 * 46341) 1).
Proof.
  split; [apply (overflow_reached_46341 (filled (46341 * 46341) 0))|].
  split; [apply (overflow_reached_46341 (filled (46341 * 46341) 1))|].
  split; [apply filled_buffer|]. split; [apply filled_buffer|]. intros H.
  destruct last_cell_46341 as (Hk & Hout & _).
  specialize (H 2147488280 Hk).
  rewrite (mandelbrot_lookup_outside 46341 1 (filled (46341 * 46341) 0) []
             2147488280 in_range_46341 in_range_1 Hout) in H.
  rewrite (mandelbrot_lookup_outside 46341 1 (filled (46341 * 46341) 1) []
             2147488280 in_range_46341 in_range_1 Hout) in H.
  rewrite !filled_lookup in H by done. discriminate H.
Qed.

(** While the index cannot overflow, for every [size] from [1] to [46340]
    and a buffer of at least [size * size] elements, every access of the call to
    the buffer is a store at the index [i * size + j] of a cell [(i, j)]
    with [0 <= i < size] and [0 <= j < size]; the index lies in
    [[0, size*size)], inside the buffer. *)
Theorem stores_in_bounds_small size iterations len m :
  0 < size <= 46340 -> Int.in_range iterations -> size * size <= len ->
  stores_in_bounds size iterations len m.
Proof.
  intros Hsz Hit Hlen e He.
  rewrite mandelbrot_log in He by (done || by apply small_in_range).
  apply grid_events_inv in He. destruct e as [i|i j|index n]; try done.
  destruct He as (i & j & Hi & Hj & -> & _).
  rewrite index_at_small by done.
  split; [by exists i, j|]. nia.
Qed.

Lemma stores_in_bounds_small_witness : stores_in_bounds 2 3 4 ∅.
Proof.
  apply (stores_in_bounds_small 2 3 4 ∅);
    unfold Int.in_range, Int.min_signed, Int.max_signed; lia.
Defined.

(** Claim C8, every access of the call lies inside the buffer, is broken
    by the code at [size = 46341], [iterations = 1]: the call enters the
    cell [(46340, 46340)], where the evaluation of [index = i * size + j]
    in [int] overflows.  Where the overflow wraps around, the index is
    [-2147479016], and the call stores there, before the start of a buffer
    of [46341 * 46341] elements. *)
Lemma stores_in_bounds_46341 :
  overflow_reached 46341 1 (filled (46341 * 46341) (-1)) 46340 46340 /\
  buffer (46341 * 46341) (filled (46341 * 46341) (-1)) /\
  ~ stores_in_bounds 46341 1 (46341 * 46341) (filled (46341 * 46341) (-1)).
Proof.
  split; [apply (overflow_reached_46341 (filled (46341 * 46341) (-1)))|].
  split; [apply filled_buffer|]. intros H.
  destruct last_cell_46341 as (_ & _ & Hindex).
  specialize (H (Store (-2147479016) 0)). cbv beta iota in H.
  destruct H as (_ & Hneg & _); [|lia].
  rewrite (mandelbrot_log 46341 1 (filled (46341 * 46341) (-1))
             in_range_46341 in_range_1).
  rewrite <- Hindex. apply (store_in_grid 46341 1 46340 46340 0); [lia|lia|].
  pose proof (cell_steps_pos 46341 1 46340 46340 in_range_1). lia.
Qed.

Lemma no_alias_small size : 0 < size <= 46340 -> no_alias size.
Proof.
  intros Hsz i j i' j' Hi Hj Hi' Hj' He.
  apply index_at_inj in He; [|done..].
  destruct He as (-> & -> & Hk).
  rewrite !index_at_small in * by done.
  rewrite Z.div_add_l, Z.div_small, Z.add_0_r by lia.
  by rewrite Z.add_comm, Z.mod_add, Z.mod_small by lia.
Qed.

(** Claim C9, as amended.  For every [size] from [1] to [46340] and every
    [iterations > 0], no two cells alias, and the stores of the call at an
    element [k] of the buffer are those of the one cell
    [(k / size, k mod size)]: one store for each step the cell takes,
    of [0], [1], ... in this order, so at least one and at most
    [iterations]; exactly one when [iterations = 1]. *)
Theorem stores_per_element size iterations m :
  0 < size <= 46340 -> Int.in_range iterations -> 0 < iterations ->
  no_alias size /\
  (forall k, 0 <= k < size * size ->
     stores_at k (log (mandelbrot size iterations (State m []))) =
       seqZ 0 (cell_steps size iterations (k / size) (k mod size)) /\
     (1 <= length (stores_at k (log (mandelbrot size iterations (State m []))))
        <= Z.to_nat iterations)%nat) /\
  (iterations = 1 -> written_once size iterations m).
Proof.
  intros Hsz Hit Hpos.
  assert (Hst : forall k, 0 <= k < size * size ->
     stores_at k (log (mandelbrot size iterations (State m []))) =
       seqZ 0 (cell_steps size iterations (k / size) (k mod size))).
  { intros k Hk. rewrite mandelbrot_log by (done || by apply small_in_range).
    by apply stores_at_grid_small. }
  split; [by apply no_alias_small|]. split.
  - intros k Hk. split; [by apply Hst|].
    rewrite Hst, length_seqZ by done.
    pose proof (cell_steps_pos size iterations (k / size) (k mod size) Hit Hpos).
    pose proof (cell_steps_bounds size iterations (k / size) (k mod size) Hit).
    lia.
  - intros -> k Hk. rewrite Hst, length_seqZ by done.
    pose proof (cell_steps_pos size 1 (k / size) (k mod size) Hit Hpos).
    pose proof (cell_steps_bounds size 1 (k / size) (k mod size) Hit).
    lia.
Qed.

Lemma stores_per_element_witness :
  (no_alias 2 /\
   forall k, 0 <= k < 2 * 2 ->
     stores_at k (log (mandelbrot 2 3 (State ∅ []))) =
       seqZ 0 (cell_steps 2 3 (k / 2) (k mod 2)) /\
     (1 <= length (stores_at k (log (mandelbrot 2 3 (State ∅ []))))
        <= Z.to_nat 3)%nat) /\
  written_once 2 1 ∅.
Proof.
  assert (Hr : forall x, -46340 <= x <= 46340 -> Int.in_range x).
  { unfold Int.in_range, Int.min_signed, Int.max_signed. lia. }
  split.
  - destruct (stores_per_element 2 3 ∅ ltac:(lia) (Hr 3 ltac:(lia)) ltac:(lia))
      as (Hal & Hst & _). by split.
  - by apply (stores_per_element 2 1 ∅ ltac:(lia) (Hr 1 ltac:(lia)) ltac:(lia)).
Defined.

(** Claim C9 fails as stated: with [size = 1] and [iterations = 2] the one
    cell takes two steps, and the call stores twice at the index [0],
    first [0] and then [1].  And beyond [size = 46340] the index wraps
    around: with [size = 65537] the cells [(65536, 0)] and [(0, 65536)] have
    the same index, [65536]. *)
Lemma written_once_1_2 :
  log (mandelbrot 1 2 (State ∅ [])) = [Row 0; Cell 0 0; Store 0 0; Store 0 1] /\
  ~ written_once 1 2 ∅ /\
  ~ no_alias 65537.
Proof.
  split; [by vm_compute|]. split.
  - intros H. specialize (H 0 ltac:(lia)). by vm_compute in H.
  - intros H.
    destruct (H 65536 0 0 65536) as [? _]; (lia || by vm_compute).
Qed.

(** Claim C10, as amended.  A call with [size <= 0] or [iterations <= 0]
    returns normally, with no error and with every element of the memory
    unchanged: it stores nothing.  With [size <= 0] the two grid loops
    execute no iteration.  With [size > 0] and [iterations <= 0] the grid
    loops visit every row and every cell, and it is the innermost loop that
    executes no iteration. *)
Theorem no_step_no_store size iterations m :
  Int.in_range size -> Int.in_range iterations ->
  size <= 0 \/ iterations <= 0 ->
  exists st, call size iterations (State m []) = Returns st /\
    col st = m /\
    (forall index n, Store index n ∉ log st) /\
    (size <= 0 -> log st = []) /\
    (0 < size -> log st = idle_events size).
Proof.
  intros Hsz Hit Hle. eexists. split; [reflexivity|].
  by apply mandelbrot_idle.
Qed.

Lemma no_step_no_store_witness :
  (exists st, call 0 5 (State ∅ []) = Returns st /\ col st = ∅ /\ log st = []) /\
  (exists st, call 2 0 (State ∅ []) = Returns st /\ col st = ∅ /\
     log st = idle_events 2).
Proof.
  assert (Hr : forall x, -46340 <= x <= 46340 -> Int.in_range x).
  { unfold Int.in_range, Int.min_signed, Int.max_signed. lia. }
  split.
  - destruct (no_step_no_store 0 5 ∅ (Hr 0 ltac:(lia)) (Hr 5 ltac:(lia))
                ltac:(lia)) as (st & Hcall & Hcol & _ & Hlog & _).
    exists st. split; [done|]. split; [done|]. apply Hlog. lia.
  - destruct (no_step_no_store 2 0 ∅ (Hr 2 ltac:(lia)) (Hr 0 ltac:(lia))
                ltac:(lia)) as (st & Hcall & Hcol & _ & _ & Hlog).
    exists st. split; [done|]. split; [done|]. apply Hlog. lia.
Defined.

(** Claim C10 fails as stated: with [size = 1] and [iterations = 0] each
    of the two grid loops executes one iteration. *)
Lemma returns_at_once_1_0 :
  log (mandelbrot 1 0 (State ∅ [])) = [Row 0; Cell 0 0] /\
  ~ returns_at_once 1 0 ∅.
Proof. split; [by vm_compute|]. intros H. by vm_compute in H. Qed.

(** Claim C4, as amended.  No call fails: [mandelbrot] has no error path
    and is not given the length of the buffer.  A call with [size <= 0] or
    [iterations <= 0] returns normally and stores nothing.  A call with
    [size] from [1] to [46340] and [iterations > 0] returns normally after a
    store at every offset of [[0, size*size)], also at those that lie past
    the end of a buffer of fewer than [size * size] elements. *)
Theorem never_rejected size iterations m :
  Int.in_range size -> Int.in_range iterations ->
  exists st, call size iterations (State m []) = Returns st /\
    (size <= 0 \/ iterations <= 0 ->
       col st = m /\ forall index n, Store index n ∉ log st) /\
    (forall len k, 0 < size <= 46340 -> 0 < iterations ->
       len < size * size -> 0 <= k -> len <= k < size * size ->
       Store k 0 ∈ log st).
Proof.
  intros Hsz Hit. eexists. split; [reflexivity|]. split.
  - intros Hle.
    destruct (mandelbrot_idle size iterations m Hsz Hit Hle) as (Hcol & Hlog & _).
    done.
  - intros len k Hsmall Hpos _ Hk0 Hk. apply store_zero_small; (done || lia).
Qed.

Lemma never_rejected_witness :
  (exists st, call 0 1 (State ∅ []) = Returns st /\ col st = ∅ /\
     forall index n, Store index n ∉ log st) /\
  (exists st, call 2 1 (State (filled 1 0) []) = Returns st /\
     Store 3 0 ∈ log st).
Proof.
  assert (Hr : forall x, -46340 <= x <= 46340 -> Int.in_range x).
  { unfold Int.in_range, Int.min_signed, Int.max_signed. lia. }
  split.
  - destruct (never_rejected 0 1 ∅ (Hr 0 ltac:(lia)) (Hr 1 ltac:(lia)))
      as (st & Hcall & Hnone & _).
    exists st. split; [done|]. apply Hnone. lia.
  - destruct (never_rejected 2 1 (filled 1 0) (Hr 2 ltac:(lia)) (Hr 1 ltac:(lia)))
      as (st & Hcall & _ & Hpast).
    exists st. split; [done|]. apply (Hpast 1 3); lia.
Defined.

(** Claim C4 fails as stated: the calls with [size = 0], with [size = -5]
    and with [iterations = 0] return normally, none raises
    [InvalidArgument]; so does a call with [size = 2] on a buffer of one
    element, after a store past its end. *)
Lemma rejected_never :
  ~ rejected 0 1 ∅ /\ ~ rejected (-5) 1 ∅ /\ ~ rejected 1 0 ∅ /\
  (buffer 1 (filled 1 0) /\ ~ rejected 2 1 (filled 1 0) /\
   Store 3 0 ∈ log (mandelbrot 2 1 (State (filled 1 0) []))).
Proof.
  repeat split; try discriminate.
  - apply filled_buffer.
  - rewrite mandelbrot_log by (unfold Int.in_range, Int.min_signed, Int.max_signed; lia).
    apply elem_of_stores_at.
    assert (E : stores_at 3 (grid_events 2 1) = [0]) by (by vm_compute).
    rewrite E. apply elem_of_cons. by left.
Qed.

(** * Doubles

    Properties of the binary64 operations, from their specification in
    [SpecFloat]. *)

(** ** Binary digits *)

Lemma digits2_pos_size p : digits2_pos p = Pos.size p.
Proof. induction p as [p IH|p IH|]; simpl; by rewrite ?IH. Qed.

Lemma Zdigits2_log2 z : 0 < z -> Zdigits2 z = Z.log2 z + 1.
Proof.
  destruct z as [|p|p]; try lia. intros _. simpl.
  rewrite digits2_pos_size. destruct p; simpl; lia.
Qed.

Lemma Zdigits2_nonneg z : 0 <= Zdigits2 z.
Proof. destruct z; simpl; lia. Qed.

Lemma Zdigits2_pos z : 0 < z -> 0 < Zdigits2 z.
Proof. destruct z; simpl; lia. Qed.

Lemma Zdigits2_lt_pow2 z k : 0 < z -> (z < 2 ^ k <-> Zdigits2 z <= k).
Proof.
  intros Hz. rewrite Zdigits2_log2 by done.
  rewrite Z.log2_lt_pow2 by done. lia.
Qed.

Lemma Zdigits2_le_pow2 z k : 0 < z -> (2 ^ k <= z <-> k < Zdigits2 z).
Proof.
  intros Hz. rewrite Zdigits2_log2 by done.
  rewrite Z.log2_le_pow2 by done. lia.
Qed.

Lemma Zdigits2_mono a b : 0 <= a <= b -> Zdigits2 a <= Zdigits2 b.
Proof.
  intros [Ha Hab]. destruct (Z.eq_dec a 0) as [->|Hne].
  - apply Zdigits2_nonneg.
  - rewrite !Zdigits2_log2 by lia.
    pose proof (Z.log2_le_mono a b Hab). lia.
Qed.

Lemma Zdigits2_mul a b :
  0 < a -> 0 < b ->
  Zdigits2 a + Zdigits2 b - 1 <= Zdigits2 (a * b) <= Zdigits2 a + Zdigits2 b.
Proof.
  intros Ha Hb. rewrite !Zdigits2_log2 by nia.
  pose proof (Z.log2_mul_below a b Ha Hb).
  pose proof (Z.log2_mul_above a b). lia.
Qed.

Lemma Zdigits2_mul_pow2 a k : 0 < a -> 0 <= k -> Zdigits2 (a * 2 ^ k) = Zdigits2 a + k.
Proof.
  intros Ha Hk. assert (0 < 2 ^ k) by (apply Z.pow_pos_nonneg; lia).
  rewrite !Zdigits2_log2 by nia. rewrite Z.log2_mul_pow2 by lia. lia.
Qed.

Lemma Zdigits2_div_pow2 z k :
  0 <= z -> 0 <= k -> Zdigits2 (z / 2 ^ k) = Z.max 0 (Zdigits2 z - k).
Proof.
  intros Hz Hk. assert (0 < 2 ^ k) by (apply Z.pow_pos_nonneg; lia).
  destruct (Z.eq_dec z 0) as [->|Hne].
  { rewrite Z.div_0_l by lia. simpl. lia. }
  destruct (Z.lt_ge_cases z (2 ^ k)) as [Hlt|Hge].
  - rewrite Z.div_small by lia. simpl.
    apply Zdigits2_lt_pow2 in Hlt; lia.
  - assert (0 < z / 2 ^ k) by (apply Z.div_str_pos; lia).
    rewrite !Zdigits2_log2 by lia.
    rewrite <- Z.shiftr_div_pow2, Z.log2_shiftr by lia.
    apply Z.log2_le_pow2 in Hge; lia.
Qed.

Lemma Zdigits2_succ z : 0 <= z -> Zdigits2 z <= Zdigits2 (z + 1) <= Zdigits2 z + 1.
Proof.
  intros Hz. split; [apply Zdigits2_mono; lia|].
  destruct (Z.eq_dec z 0) as [->|Hne]; [simpl; lia|].
  apply Zdigits2_lt_pow2; [lia|].
  assert (z < 2 ^ Zdigits2 z) by (apply Zdigits2_lt_pow2; lia).
  replace (Zdigits2 z + 1) with (Z.succ (Zdigits2 z)) by lia.
  rewrite Z.pow_succ_r by apply Zdigits2_nonneg. lia.
Qed.

Lemma Zdigits2_add a b :
  0 <= a -> 0 <= b -> Zdigits2 (a + b) <= Z.max (Zdigits2 a) (Zdigits2 b) + 1.
Proof.
  intros Ha Hb.
  destruct (Z.eq_dec (a + b) 0) as [->|Hne].
  { pose proof (Zdigits2_nonneg a). simpl. lia. }
  apply Zdigits2_lt_pow2; [lia|].
  pose proof (Zdigits2_nonneg a). pose proof (Zdigits2_nonneg b).
  assert (a < 2 ^ Z.max (Zdigits2 a) (Zdigits2 b)).
  { destruct (Z.eq_dec a 0) as [->|?]; [apply Z.pow_pos_nonneg; lia|].
    apply Zdigits2_lt_pow2; lia. }
  assert (b < 2 ^ Z.max (Zdigits2 a) (Zdigits2 b)).
  { destruct (Z.eq_dec b 0) as [->|?]; [apply Z.pow_pos_nonneg; lia|].
    apply Zdigits2_lt_pow2; lia. }
  replace (Z.max (Zdigits2 a) (Zdigits2 b) + 1)
    with (Z.succ (Z.max (Zdigits2 a) (Zdigits2 b))) by lia.
  rewrite Z.pow_succ_r by lia. lia.
Qed.

(** ** Shifts to the right *)

Lemma shr_1_m mrs : 0 <= shr_m mrs -> shr_m (shr_1 mrs) = shr_m mrs / 2.
Proof.
  rewrite <- Z.div2_div. destruct mrs as [m r s]. simpl.
  destruct m as [|[p|p|]|p]; simpl; done || lia.
Qed.

Lemma iter_pos_shr_m p mrs :
  0 <= shr_m mrs -> shr_m (SpecFloat.iter_pos shr_1 p mrs) = shr_m mrs / 2 ^ Z.pos p.
Proof.
  revert mrs. induction p as [p IH|p IH|]; intros mrs Hm; simpl SpecFloat.iter_pos.
  - assert (0 <= shr_m mrs / 2) by (apply Z.div_pos; lia).
    assert (0 < 2 ^ Z.pos p) by (apply Z.pow_pos_nonneg; lia).
    rewrite IH, IH, shr_1_m by
      (rewrite ?IH, ?shr_1_m by (rewrite ?shr_1_m by done; done);
       repeat apply Z.div_pos; lia).
    rewrite !Z.div_div by lia. f_equal.
    replace (Z.pos p~1) with (1 + Z.pos p + Z.pos p) by lia.
    rewrite !Z.pow_add_r by lia. ring.
  - assert (0 < 2 ^ Z.pos p) by (apply Z.pow_pos_nonneg; lia).
    rewrite IH, IH by (rewrite ?IH by done; repeat apply Z.div_pos; lia).
    rewrite !Z.div_div by lia. f_equal.
    replace (Z.pos p~0) with (Z.pos p + Z.pos p) by lia.
    rewrite !Z.pow_add_r by lia. ring.
  - by apply shr_1_m.
Qed.

Lemma shr_spec mrs e n :
  0 <= shr_m mrs ->
  (shr mrs e n).2 = e + Z.max n 0 /\
  shr_m (shr mrs e n).1 = shr_m mrs / 2 ^ Z.max n 0.
Proof.
  intros Hm. destruct n as [|p|p]; simpl.
  - rewrite Z.div_1_r. lia.
  - rewrite iter_pos_shr_m by done. split; [lia|done].
  - rewrite Z.div_1_r. lia.
Qed.

Lemma Zdigits2_zero z : 0 <= z -> Zdigits2 z = 0 -> z = 0.
Proof. destruct z; simpl; lia. Qed.

Lemma shr_record_of_loc_m m l : shr_m (shr_record_of_loc m l) = m.
Proof. by destruct l as [|[]]. Qed.

Lemma round_nearest_even_bounds m l : m <= round_nearest_even m l <= m + 1.
Proof. destruct l as [|[]]; simpl; try lia. destruct (Z.even m); lia. Qed.

(** ** Rounding *)

(** What [binary_round_aux] returns for binary64, from a mantissa that is
    not negative: never a NaN; a mantissa of at most 53 digits; a magnitude
    (digits plus exponent) that is the one of the input or one more,
    unless the input lies below the least subnormal. *)
Lemma binary_round_aux_spec sx mx ex lx :
  0 <= mx ->
  exists m3 e3,
    binary_round_aux prec emax sx mx ex lx =
      match m3 with
      | 0 => S754_zero sx
      | Z.pos m => if e3 <=? emax - prec then S754_finite sx m e3
                   else S754_infinity sx
      | Z.neg _ => S754_nan
      end /\
    0 <= m3 /\ Zdigits2 m3 <= 53 /\ -1074 <= e3 /\
    e3 <= Z.max ex (Z.max (Zdigits2 mx + ex - 52) (-1074)) /\
    (0 < mx -> m3 = 0 -> Zdigits2 mx + ex <= -1074) /\
    (0 < mx -> 0 < m3 ->
       Zdigits2 mx + ex <= Zdigits2 m3 + e3 <=
         Z.max (Zdigits2 mx + ex) (-1074) + 1).
Proof.
  intros Hmx. unfold binary_round_aux, shr_fexp.
  set (n1 := fexp prec emax (Zdigits2 mx + ex) - ex).
  pose proof (shr_spec (shr_record_of_loc mx lx) ex n1) as Hs1.
  rewrite shr_record_of_loc_m in Hs1. specialize (Hs1 Hmx).
  destruct (shr (shr_record_of_loc mx lx) ex n1) as [mrs1 e1].
  simpl in Hs1. destruct Hs1 as [He1 Hm1].
  set (m2 := round_nearest_even (shr_m mrs1) (loc_of_shr_record mrs1)).
  assert (Hn1 : 0 <= Z.max n1 0) by lia.
  assert (Hm1' : 0 <= shr_m mrs1).
  { rewrite Hm1. apply Z.div_pos; [lia|]. apply Z.pow_pos_nonneg; lia. }
  pose proof (round_nearest_even_bounds (shr_m mrs1) (loc_of_shr_record mrs1))
    as Hrne. fold m2 in Hrne.
  assert (Hm2 : 0 <= m2) by lia.
  set (n2 := fexp prec emax (Zdigits2 m2 + e1) - e1).
  pose proof (shr_spec (shr_record_of_loc m2 loc_Exact) e1 n2) as Hs2.
  rewrite shr_record_of_loc_m in Hs2. specialize (Hs2 Hm2).
  destruct (shr (shr_record_of_loc m2 loc_Exact) e1 n2) as [mrs3 e3].
  simpl in Hs2. destruct Hs2 as [He3 Hm3].
  exists (shr_m mrs3), e3. split; [done|].
  assert (Hn2 : 0 <= Z.max n2 0) by lia.
  assert (Hm3' : 0 <= shr_m mrs3).
  { rewrite Hm3. apply Z.div_pos; [lia|]. apply Z.pow_pos_nonneg; lia. }
  pose proof (Zdigits2_div_pow2 mx (Z.max n1 0) Hmx Hn1) as Hd1.
  rewrite <- Hm1 in Hd1.
  pose proof (Zdigits2_div_pow2 m2 (Z.max n2 0) Hm2 Hn2) as Hd3.
  rewrite <- Hm3 in Hd3.
  assert (Hd2 : Zdigits2 (shr_m mrs1) <= Zdigits2 m2 <= Zdigits2 (shr_m mrs1) + 1).
  { pose proof (Zdigits2_succ (shr_m mrs1) Hm1').
    pose proof (Zdigits2_mono (shr_m mrs1) m2).
    pose proof (Zdigits2_mono m2 (shr_m mrs1 + 1)). lia. }
  pose proof (Zdigits2_nonneg mx). pose proof (Zdigits2_nonneg m2).
  unfold fexp, emin, prec, emax in n1, n2.
  split; [done|]. split; [lia|]. split; [lia|]. split; [lia|]. split.
  - intros Hpos Hzero. pose proof (Zdigits2_pos mx Hpos).
    rewrite Hzero in Hd3. simpl in Hd3. lia.
  - intros Hpos Hpos3. pose proof (Zdigits2_pos mx Hpos).
    pose proof (Zdigits2_pos _ Hpos3). lia.
Qed.


(** ** Classes of doubles *)

Lemma fin_le_is_fin K x : fin_le K x -> is_fin x.
Proof. by destruct x. Qed.

Lemma fin_le_mono K K' x : K <= K' -> fin_le K x -> fin_le K' x.
Proof. destruct x; simpl; try done. lia. Qed.

Lemma valid_short x : valid_binary x = true -> short x.
Proof.
  destruct x as [| | |s m e]; try done. simpl.
  unfold bounded, canonical_mantissa, fexp, emin, prec, emax.
  intros [H1 _]%andb_true_iff. apply Z.eqb_eq in H1. lia.
Qed.

(** The outcomes of a rounding, case by case. *)
Lemma binary_round_aux_cases sx mx ex lx :
  0 <= mx ->
  match binary_round_aux prec emax sx mx ex lx with
  | S754_nan => False
  | S754_zero s => s = sx /\ (0 < mx -> Zdigits2 mx + ex <= -1074)
  | S754_infinity s =>
      s = sx /\ 971 < Z.max ex (Z.max (Zdigits2 mx + ex - 52) (-1074))
  | S754_finite s m e =>
      s = sx /\ Zdigits2 (Z.pos m) <= 53 /\
      (0 < mx -> Zdigits2 mx + ex <= Zdigits2 (Z.pos m) + e <=
                 Z.max (Zdigits2 mx + ex) (-1074) + 1)
  end.
Proof.
  intros Hmx.
  destruct (binary_round_aux_spec sx mx ex lx Hmx)
    as (m3 & e3 & -> & Hm3 & Hd3 & He3 & He3' & Hz & Hp).
  destruct m3 as [|m|m]; [| |lia].
  - split; [done|]. intros; by apply Hz.
  - unfold prec, emax. destruct (Z.leb_spec e3 (1024 - 53)).
    + split; [done|]. split; [done|]. intros; apply Hp; lia.
    + split; [done|]. lia.
Qed.

(** ** Alignment *)

Lemma pos_iter_xO m d : Z.pos (Pos.iter xO m d) = Z.pos m * 2 ^ Z.pos d.
Proof.
  induction d as [|d IH] using Pos.peano_ind.
  - simpl. lia.
  - rewrite Pos.iter_succ, Pos2Z.inj_xO, IH, Pos2Z.inj_succ.
    rewrite Z.pow_succ_r by lia. ring.
Qed.

Lemma shl_align_snd mx ex ez : (shl_align mx ex ez).2 = Z.min ex ez.
Proof. unfold shl_align. destruct (ez - ex) eqn:E; simpl; lia. Qed.

Lemma shl_align_fst mx ex ez :
  Z.pos (shl_align mx ex ez).1 = Z.pos mx * 2 ^ (ex - Z.min ex ez).
Proof.
  unfold shl_align. destruct (ez - ex) as [|d|d] eqn:E; simpl fst.
  - replace (ex - Z.min ex ez) with 0 by lia. simpl. lia.
  - replace (ex - Z.min ex ez) with 0 by lia. simpl. lia.
  - rewrite pos_iter_xO. do 2 f_equal. lia.
Qed.

Lemma shl_align_digits mx ex ez :
  Zdigits2 (Z.pos (shl_align mx ex ez).1) + (shl_align mx ex ez).2 =
  Zdigits2 (Z.pos mx) + ex.
Proof.
  rewrite shl_align_fst, shl_align_snd.
  rewrite Zdigits2_mul_pow2 by lia. lia.
Qed.

Lemma binary_round_cases sx mx ex :
  match binary_round prec emax sx mx ex with
  | S754_nan => False
  | S754_zero s => s = sx /\ Zdigits2 (Z.pos mx) + ex <= -1074
  | S754_infinity s => s = sx /\ 1024 <= Zdigits2 (Z.pos mx) + ex
  | S754_finite s m e =>
      s = sx /\ Zdigits2 (Z.pos m) <= 53 /\
      Zdigits2 (Z.pos mx) + ex <= Zdigits2 (Z.pos m) + e <=
        Z.max (Zdigits2 (Z.pos mx) + ex) (-1074) + 1
  end.
Proof.
  unfold binary_round.
  pose proof (shl_align_digits mx ex (fexp prec emax (Z.pos (digits2_pos mx) + ex))) as Hd.
  pose proof (shl_align_snd mx ex (fexp prec emax (Z.pos (digits2_pos mx) + ex))) as He.
  destruct (shl_align _ _ _) as [mz ez]. simpl in Hd, He.
  pose proof (binary_round_aux_cases sx (Z.pos mz) ez loc_Exact) as H.
  unfold fexp, emin, prec, emax in He.
  destruct (binary_round_aux _ _ _ _ _ _) as [s|s| |s m e];
    simpl Zdigits2 in *.
  - destruct H as [-> H]; [lia|]. split; [done|]. lia.
  - destruct H as [-> H]; [lia|]. split; [done|]. lia.
  - apply H. lia.
  - destruct H as (-> & H1 & H2); [lia|]. split; [done|]. split; [done|]. lia.
Qed.

Lemma binary_normalize_cases M e szero :
  match binary_normalize prec emax M e szero with
  | S754_nan => False
  | S754_zero _ => M = 0 \/ Zdigits2 M + e <= -1074
  | S754_infinity s => s = (M <? 0) /\ 1024 <= Zdigits2 M + e
  | S754_finite s m' e' =>
      s = (M <? 0) /\ Zdigits2 (Z.pos m') <= 53 /\
      Zdigits2 M + e <= Zdigits2 (Z.pos m') + e' <=
        Z.max (Zdigits2 M + e) (-1074) + 1
  end.
Proof.
  destruct M as [|m|m]; simpl binary_normalize.
  - by left.
  - pose proof (binary_round_cases false m e) as H.
    destruct (binary_round _ _ _ _ _); simpl Zdigits2 in *; tauto.
  - pose proof (binary_round_cases true m e) as H.
    destruct (binary_round _ _ _ _ _); simpl Zdigits2 in *; tauto.
Qed.

(** ** Sums and differences *)

(** A finite number plus anything but a NaN is no NaN. *)
Lemma SFadd_fin_l x y :
  is_fin x -> y <> S754_nan -> SFadd prec emax x y <> S754_nan.
Proof.
  destruct x as [sx| | |sx mx ex], y as [sy|sy| |sy my ey]; try done.
  - intros _ _. by destruct sx, sy.
  - intros _ _. unfold SFadd.
    pose proof (binary_normalize_cases
      (cond_Zopp sx (Z.pos (shl_align mx ex (Z.min ex ey)).1) +
       cond_Zopp sy (Z.pos (shl_align my ey (Z.min ex ey)).1))
      (Z.min ex ey) false) as H.
    intros E. by rewrite E in H.
Qed.

(** Two numbers with a clear sign bit have a sum, which is no NaN. *)
Lemma SFadd_sign_clear x y :
  sign_clear x -> sign_clear y -> SFadd prec emax x y <> S754_nan.
Proof.
  intros Hx Hy.
  destruct x as [sx|sx| |sx mx ex], y as [sy|sy| |sy my ey];
    simpl in Hx, Hy; subst; try done.
  by apply SFadd_fin_l.
Qed.

Lemma aligned_digits mx ex ez :
  ez <= ex ->
  Zdigits2 (Z.pos (shl_align mx ex ez).1) + ez = Zdigits2 (Z.pos mx) + ex.
Proof.
  intros Hle. pose proof (shl_align_digits mx ex ez) as H.
  rewrite shl_align_snd in H. by replace (Z.min ex ez) with ez in H by lia.
Qed.

(** The difference of two finite numbers below [2 ^ K] is finite. *)
Lemma SFsub_fin K x y :
  fin_le K x -> fin_le K y -> K <= 1022 -> is_fin (SFsub prec emax x y).
Proof.
  destruct x as [sx| | |sx mx ex], y as [sy|sy| |sy my ey]; try done.
  - intros _ _ _. by destruct sx, sy.
  - simpl. intros Hx Hy HK.
    pose proof (aligned_digits mx ex (Z.min ex ey) ltac:(lia)) as Hdx.
    pose proof (aligned_digits my ey (Z.min ex ey) ltac:(lia)) as Hdy.
    set (A := Z.pos (shl_align mx ex (Z.min ex ey)).1) in *.
    set (B := Z.pos (shl_align my ey (Z.min ex ey)).1) in *.
    pose proof (binary_normalize_cases (cond_Zopp sx A - cond_Zopp sy B)
                  (Z.min ex ey) false) as H.
    assert (HM : Zdigits2 (cond_Zopp sx A - cond_Zopp sy B) <=
                 Z.max (Zdigits2 A) (Zdigits2 B) + 1).
    { etransitivity; [|apply (Zdigits2_add A B); lia].
      transitivity (Zdigits2 (Z.abs (cond_Zopp sx A - cond_Zopp sy B))).
      - by destruct (cond_Zopp sx A - cond_Zopp sy B).
      - apply Zdigits2_mono. destruct sx, sy; simpl; lia. }
    destruct (binary_normalize _ _ _ _ _); try done. fold_digits. lia.
Qed.

(** ** Products *)

Lemma SFmul_fin a b x y :
  fin_le a x -> fin_le b y -> a + b <= 973 ->
  fin_le (Z.max (a + b) (-1074) + 1) (SFmul prec emax x y).
Proof.
  destruct x as [sx| | |sx mx ex], y as [sy|sy| |sy my ey]; try done.
  simpl. intros Hx Hy Hab.
  pose proof (binary_round_aux_cases (xorb sx sy) (Z.pos (mx * my)) (ex + ey)
                loc_Exact ltac:(lia)) as H.
  pose proof (Zdigits2_mul (Z.pos mx) (Z.pos my) ltac:(lia) ltac:(lia)) as Hd.
  pose proof (Zdigits2_pos (Z.pos mx) ltac:(lia)).
  pose proof (Zdigits2_pos (Z.pos my) ltac:(lia)).
  rewrite <- Pos2Z.inj_mul in Hd.
  fold_digits.
  destruct (binary_round_aux _ _ _ _ _ _) as [s|s| |s m e]; try done.
  - lia.
  - destruct H as (_ & _ & H). specialize (H ltac:(lia)). simpl.
    fold_digits. lia.
Qed.

(** A product by a finite number that is not zero is no NaN. *)
Lemma SFmul_nonnan x sy my ey :
  x <> S754_nan -> SFmul prec emax x (S754_finite sy my ey) <> S754_nan.
Proof.
  destruct x as [sx|sx| |sx mx ex]; try done. simpl. intros _.
  pose proof (binary_round_aux_cases (xorb sx sy) (Z.pos (mx * my)) (ex + ey)
                loc_Exact ltac:(lia)) as H.
  intros E. by rewrite E in H.
Qed.

(** A square has a clear sign bit. *)
Lemma SFmul_self_sign x : x <> S754_nan -> sign_clear (SFmul prec emax x x).
Proof.
  destruct x as [sx|sx| |sx mx ex]; try done; simpl; intros _.
  - by destruct sx.
  - by destruct sx.
  - pose proof (binary_round_aux_cases (xorb sx sx) (Z.pos (mx * mx)) (ex + ex)
                  loc_Exact ltac:(lia)) as H.
    destruct (binary_round_aux _ _ _ _ _ _) as [s|s| |s m e]; try done;
      destruct sx; simpl in H; tauto.
Qed.

(** A number whose square is finite and below [2 ^ K] is finite and below
    [2 ^ K'], where [K + 1 <= 2 * K']. *)
Lemma SFmul_self_fin K K' x :
  fin_le K (SFmul prec emax x x) -> -1074 <= K -> K + 1 <= 2 * K' ->
  fin_le K' x.
Proof.
  destruct x as [sx|sx| |sx mx ex]; try done. simpl. intros H HK HK'.
  pose proof (binary_round_aux_cases (xorb sx sx) (Z.pos (mx * mx)) (ex + ex)
                loc_Exact ltac:(lia)) as Hr.
  pose proof (Zdigits2_mul (Z.pos mx) (Z.pos mx) ltac:(lia) ltac:(lia)) as Hd.
  rewrite <- Pos2Z.inj_mul in Hd.
  fold_digits.
  destruct (binary_round_aux _ _ _ _ _ _) as [s|s| |s m e]; try done.
  - destruct Hr as [_ Hr]. specialize (Hr ltac:(lia)). lia.
  - destruct Hr as (_ & _ & Hr). specialize (Hr ltac:(lia)). simpl in H.
    fold_digits. lia.
Qed.

(** ** Comparisons *)

Lemma SFcompare_antisym x y : SFcompare y x = CompOpp <$> SFcompare x y.
Proof.
  destruct x as [sx|sx| |sx mx ex], y as [sy|sy| |sy my ey]; simpl;
    try done; try (by destruct sx); try (by destruct sy);
    try (by destruct sx, sy).
  f_equal. destruct sx, sy; try done.
  - rewrite (Z.compare_antisym ex ey).
    destruct (ex ?= ey); simpl; try done.
    rewrite CompOpp_involutive. apply (Pos.compare_cont_antisym my mx Eq).
  - rewrite (Z.compare_antisym ex ey).
    destruct (ex ?= ey); simpl; try done.
    symmetry. apply (Pos.compare_cont_antisym mx my Eq).
Qed.

Lemma SFcompare_nonnan x y :
  x <> S754_nan -> y <> S754_nan -> is_Some (SFcompare x y).
Proof.
  destruct x as [sx|sx| |sx mx ex], y as [sy|sy| |sy my ey]; try done;
    intros _ _; by eexists.
Qed.

(** On numbers that are no NaN, [c < x] is the negation of [x <= c]. *)
Lemma SFltb_negb_SFleb x c :
  x <> S754_nan -> c <> S754_nan -> SFltb c x = negb (SFleb x c).
Proof.
  intros Hx Hc. unfold SFltb, SFleb. rewrite (SFcompare_antisym x c).
  destruct (SFcompare_nonnan x c Hx Hc) as [o ->]. by destruct o.
Qed.


Lemma Prim2SF_100 : Prim2SF 100 = SF100.
Proof. reflexivity. Qed.

Lemma SFleb_100_fin s m e :
  short (S754_finite s m e) ->
  SFleb (S754_finite s m e) SF100 = true -> s = false ->
  fin_le 7 (S754_finite s m e).
Proof.
  unfold short, fin_le. intros Hd Hle ->.
  unfold SFleb, SFcompare, SF100 in Hle.
  destruct (Z.compare_spec e (-46)); try done; lia.
Qed.

(** The test [a + b <= 100] on two numbers that are not negative bounds
    each of them. *)
Lemma test_bound a b :
  sign_clear a -> sign_clear b -> short a -> short b ->
  SFleb (SFadd prec emax a b) SF100 = true ->
  fin_le 7 a /\ fin_le 7 b.
Proof.
  intros Ha Hb Sa Sb.
  destruct a as [sa|sa| |sa ma ea], b as [sb|sb| |sb mb eb];
    simpl in Ha, Hb; subst; try done.
  - intros H. split; [done|]. by apply SFleb_100_fin.
  - intros H. split; [|done]. by apply SFleb_100_fin.
  - unfold SFadd. intros H.
    pose proof (aligned_digits ma ea (Z.min ea eb) ltac:(lia)) as Hda.
    pose proof (aligned_digits mb eb (Z.min ea eb) ltac:(lia)) as Hdb.
    set (A := Z.pos (shl_align ma ea (Z.min ea eb)).1) in *.
    set (B := Z.pos (shl_align mb eb (Z.min ea eb)).1) in *.
    simpl cond_Zopp in H.
    pose proof (binary_normalize_cases (A + B) (Z.min ea eb) false) as Hn.
    pose proof (Zdigits2_mono A (A + B) ltac:(lia)).
    pose proof (Zdigits2_mono B (A + B) ltac:(lia)).
    assert (Hpos : (A + B <? 0) = false) by (apply Z.ltb_ge; lia).
    rewrite Hpos in Hn.
    destruct (binary_normalize _ _ _ _ _) as [s|s| |s m e]; try done.
    + simpl. fold_digits. lia.
    + by destruct Hn as [-> _].
    + destruct Hn as (Hs & Hd & Hn).
      pose proof (SFleb_100_fin s m e Hd H Hs) as Hm. simpl in Hm.
      simpl. fold_digits. lia.
Qed.

(** ** Quotients *)

(** A quotient by a finite number that is not zero is no NaN. *)
Lemma SFdiv_nonnan x sy my ey :
  x <> S754_nan -> SFdiv prec emax x (S754_finite sy my ey) <> S754_nan.
Proof.
  destruct x as [sx|sx| |sx mx ex]; try done. intros _. unfold SFdiv.
  unfold SFdiv_core_binary.
  set (m' := match _ - _ - _ with Z.pos _ => _ | 0 => _ | Z.neg _ => _ end).
  assert (Hm' : 0 <= m').
  { unfold m'. destruct (_ - _ - _); [lia| |lia].
    apply Z.shiftl_nonneg. lia. }
  pose proof (Z_div_mod m' (Z.pos my) ltac:(lia)) as Hdiv.
  destruct (Z.div_eucl m' (Z.pos my)) as [q r].
  assert (Hq : 0 <= q) by nia.
  match goal with |- binary_round_aux _ _ ?s ?m ?e ?l <> _ =>
    pose proof (binary_round_aux_cases s m e l Hq) as H
  end.
  intros E. by rewrite E in H.
Qed.

(** ** Integers as doubles *)

Lemma binary_normalize_nonnan M e szero :
  binary_normalize prec emax M e szero <> S754_nan.
Proof.
  pose proof (binary_normalize_cases M e szero) as H.
  intros E. by rewrite E in H.
Qed.

(** A positive integer below [2 ^ 63] converts to a finite double that is
    not zero. *)
Lemma binary_normalize_int z :
  0 < z < 2 ^ 63 ->
  exists s m e, binary_normalize prec emax z 0 false = S754_finite s m e.
Proof.
  intros Hz. pose proof (binary_normalize_cases z 0 false) as H.
  assert (Zdigits2 z <= 63) by (apply Zdigits2_lt_pow2; lia).
  pose proof (Zdigits2_pos z ltac:(lia)).
  destruct (binary_normalize _ _ _ _ _) as [s|s| |s m e]; try done.
  - lia.
  - lia.
  - by exists s, m, e.
Qed.

(** ** The doubles of the kernel *)

Lemma Prim2SF_0 : Prim2SF 0 = S754_zero false.
Proof. reflexivity. Qed.

Lemma Prim2SF_2 : Prim2SF 2 = S754_finite false 4503599627370496 (-51).
Proof. reflexivity. Qed.

Lemma Prim2SF_3 : Prim2SF 3 = S754_finite false 6755399441055744 (-51).
Proof. reflexivity. Qed.

Lemma Prim2SF_m2 : Prim2SF (-2) = S754_finite true 4503599627370496 (-51).
Proof. reflexivity. Qed.

Lemma Prim2SF_m1_5 : Prim2SF (-1.5) = S754_finite true 6755399441055744 (-52).
Proof. reflexivity. Qed.

Lemma nonnan_0 : nonnan 0.
Proof. unfold nonnan. by rewrite Prim2SF_0. Qed.

Lemma Prim2SF_short x : short (Prim2SF x).
Proof. apply valid_short, Prim2SF_valid. Qed.

(** While [z0] and [z1] are no NaN the two tests, [> 100] of the
    specification and [<= 100] of the code, are the negation of each
    other. *)
Lemma test_total z0 z1 :
  nonnan z0 -> nonnan z1 ->
  (100 <? z0 * z0 + z1 * z1)%float = negb (z0 * z0 + z1 * z1 <=? 100)%float.
Proof.
  unfold nonnan. intros H0 H1.
  rewrite FloatAxioms.ltb_spec, FloatAxioms.leb_spec. apply SFltb_negb_SFleb; [|by rewrite Prim2SF_100].
  rewrite FloatAxioms.add_spec, !FloatAxioms.mul_spec.
  apply SFadd_sign_clear; by apply SFmul_self_sign.
Qed.

(** A step that passes the test leaves no NaN. *)
Lemma step_nonnan z0 z1 cx cy :
  nonnan z0 -> nonnan z1 -> nonnan cx -> nonnan cy ->
  (z0 * z0 + z1 * z1 <=? 100)%float = true ->
  nonnan (z0 * z0 - z1 * z1 + cx) /\ nonnan (2 * z0 * z1 + cy).
Proof.
  unfold nonnan. intros H0 H1 Hx Hy Htest.
  rewrite FloatAxioms.leb_spec, FloatAxioms.add_spec, Prim2SF_100 in Htest.
  pose proof (Prim2SF_short (z0 * z0)) as Sa.
  pose proof (Prim2SF_short (z1 * z1)) as Sb.
  rewrite FloatAxioms.mul_spec in Sa, Sb, Htest. rewrite FloatAxioms.mul_spec in Htest.
  unfold SF64add, SF64mul in *.
  destruct (test_bound _ _ (SFmul_self_sign _ H0) (SFmul_self_sign _ H1)
              Sa Sb Htest) as [Ha Hb].
  pose proof (SFmul_self_fin 7 4 _ Ha ltac:(lia) ltac:(lia)) as Hz0.
  pose proof (SFmul_self_fin 7 4 _ Hb ltac:(lia) ltac:(lia)) as Hz1.
  split.
  - rewrite FloatAxioms.add_spec, FloatAxioms.sub_spec, !FloatAxioms.mul_spec.
    apply SFadd_fin_l; [|done]. by apply (SFsub_fin 7).
  - rewrite FloatAxioms.add_spec, !FloatAxioms.mul_spec, Prim2SF_2.
    apply SFadd_fin_l; [|done].
    eapply fin_le_is_fin. apply (SFmul_fin 7 4); [|done|lia].
    apply (SFmul_fin 2 4 (S754_finite false 4503599627370496 (-51)));
      [|done|lia].
    by vm_compute.
Qed.

Lemma double_of_int_spec z :
  0 <= z < 2 ^ 63 ->
  Prim2SF (double_of_int z) = binary_normalize prec emax z 0 false.
Proof.
  intros Hz. unfold double_of_int.
  destruct (Z.ltb_spec z 0) as [?|_]; [lia|].
  rewrite of_uint63_spec, of_Z_spec.
  assert (E : wB = 2 ^ 63) by reflexivity.
  rewrite E, Z.mod_small by lia. done.
Qed.

(** The coordinates of a cell are no NaN. *)
Lemma coordinate_nonnan (c : float) size k :
  is_fin (Prim2SF c) -> 0 < size < 2 ^ 63 -> 0 <= k < 2 ^ 63 ->
  nonnan (c + double_of_int k / double_of_int size * 3).
Proof.
  unfold nonnan. intros Hc Hsz Hk.
  rewrite FloatAxioms.add_spec, FloatAxioms.mul_spec, FloatAxioms.div_spec, Prim2SF_3, !double_of_int_spec by lia.
  destruct (binary_normalize_int size Hsz) as (s & m & e & ->).
  apply SFadd_fin_l; [done|].
  apply SFmul_nonnan, SFdiv_nonnan, binary_normalize_nonnan.
Qed.

Lemma cx_at_nonnan size j :
  0 < size < 2 ^ 63 -> 0 <= j < 2 ^ 63 -> nonnan (cx_at size j).
Proof. intros. apply coordinate_nonnan; [by rewrite Prim2SF_m2|done..]. Qed.

Lemma cy_at_nonnan size i :
  0 < size < 2 ^ 63 -> 0 <= i < 2 ^ 63 -> nonnan (cy_at size i).
Proof. intros. apply coordinate_nonnan; [by rewrite Prim2SF_m1_5|done..]. Qed.

(** ** The [n] loop and the reference algorithm *)

(** From the same locals, which are no NaN, the loop of the code and the
    loop of the specification end with the same [(z0, z1)], and the
    specification's [result] is the last [n] the code has stored. *)
Lemma n_loop_reference fuel iterations index cx cy n z0 z1 st result :
  Int.in_range iterations -> 0 <= n ->
  nonnan cx -> nonnan cy -> nonnan z0 -> nonnan z1 ->
  let r := n_loop fuel iterations index cx cy n z0 z1 st in
  reference_loop fuel iterations cx cy n z0 z1 result =
  (r.1.1.2, r.1.2, if decide (r.1.1.1 = n) then result else r.1.1.1 - 1).
Proof.
  intros Hit Hn Hcx Hcy. revert n z0 z1 st result Hn.
  induction fuel as [|fuel IH]; intros n z0 z1 st result Hn Hz0 Hz1; simpl.
  { by destruct (decide (n = n)). }
  destruct (Z.ltb_spec n iterations) as [Hlt|Hge].
  2:{ simpl. by destruct (decide (n = n)). }
  rewrite test_total by done.
  destruct (z0 * z0 + z1 * z1 <=? 100)%float eqn:Htest; simpl.
  2:{ by destruct (decide (n = n)). }
  destruct (step_nonnan z0 z1 cx cy Hz0 Hz1 Hcx Hcy Htest) as [Hz0' Hz1'].
  rewrite (incr_below n iterations) by (done || lia).
  rewrite (IH (n + 1) _ _ (store index n st) n) by (done || lia).
  destruct (n_loop_run fuel iterations index cx cy (n + 1)
              (z0 * z0 - z1 * z1 + cx) (2 * z0 * z1 + cy)
              (store index n st) Hit ltac:(lia)) as [Hb _].
  do 2 destruct (decide _); try lia; f_equal; lia.
Qed.

Lemma cell_recorded_steps size iterations i j st :
  Int.in_range iterations -> 0 < iterations ->
  cell_recorded size iterations i j st =
  Some (cell_steps size iterations i j - 1).
Proof.
  intros Hit Hpos. unfold cell_recorded.
  rewrite cell_run by done. cbn [snd].
  rewrite run_lookup, stores_at_cell.
  destruct (decide _) as [_|?]; [|done].
  pose proof (cell_steps_pos size iterations i j Hit Hpos).
  rewrite last_seqZ by lia. f_equal.
Qed.

Lemma reference_cell_locals size iterations i j :
  Int.in_range size -> Int.in_range iterations ->
  0 < size -> 0 <= i < size -> 0 <= j < size ->
  reference_cell size iterations i j =
  ((cell_locals size iterations i j).1.2, (cell_locals size iterations i j).2,
   if decide (cell_steps size iterations i j = 0) then 0
   else cell_steps size iterations i j - 1).
Proof.
  intros Hsz Hit Hpos Hi Hj.
  unfold Int.in_range, Int.min_signed, Int.max_signed in Hsz.
  unfold reference_cell, cell_steps, cell_locals, cell.
  apply (n_loop_reference _ _ _ (cx_at size j) (cy_at size i));
    (done || lia || apply nonnan_0 || apply cx_at_nonnan || apply cy_at_nonnan);
    lia.
Qed.

(** Claim C1.  For every [size > 0] and [iterations > 0], the computation
    of the code for each cell equals the reference algorithm of the
    specification: from [(0, 0)], with the same [cx] and [cy], the code,
    which tests [z0^2 + z1^2 <= 100] and computes [z0_tmp] first, and the
    reference, which tests [z0^2 + z1^2 > 100.0] and computes [z1_new]
    first, go through the same pairs [(z0, z1)] (the locals after a
    budget of [0], [1], ..., [iterations] steps) and the value the code
    leaves in [col[index]] is the [result] of the reference. *)
Theorem cell_refines_reference size iterations i j st :
  Int.in_range size -> Int.in_range iterations ->
  0 < size -> 0 < iterations -> 0 <= i < size -> 0 <= j < size ->
  cell_orbit size iterations i j = reference_orbit size iterations i j /\
  cell_recorded size iterations i j st =
    Some (reference_cell size iterations i j).2.
Proof.
  intros Hsz Hit Hpos Hipos Hi Hj. split.
  - unfold cell_orbit, reference_orbit. apply list_fmap_ext.
    intros k m Hm%list_elem_of_lookup_2%elem_of_seqZ.
    rewrite reference_cell_locals; [done|done| |done..].
    unfold Int.in_range, Int.min_signed, Int.max_signed in *. lia.
  - rewrite cell_recorded_steps, reference_cell_locals by done. cbn [snd].
    pose proof (cell_steps_pos size iterations i j Hit Hipos).
    destruct (decide _); [lia|done].
Qed.

Lemma cell_refines_reference_witness :
  cell_orbit 3 50 0 0 = reference_orbit 3 50 0 0 /\
  cell_recorded 3 50 0 0 empty_state = Some (reference_cell 3 50 0 0).2.
Proof.
  apply (cell_refines_reference 3 50 0 0 empty_state);
    unfold Int.in_range, Int.min_signed, Int.max_signed; lia.
Defined.

(** ** The steps of a cell and the iterates of its point *)

Lemma iterate_succ n cx cy :
  0 <= n -> iterate (Z.to_nat (n + 1)) cx cy = update cx cy (iterate (Z.to_nat n) cx cy).
Proof. intros Hn. by replace (Z.to_nat (n + 1)) with (S (Z.to_nat n)) by lia. Qed.

(** The loop runs as long as the iterate has not escaped: up to
    [iterations] when it escapes at no step below, and up to its first
    escape otherwise. *)
Lemma n_loop_steps fuel iterations index cx cy n z0 z1 st stop :
  Int.in_range iterations -> 0 <= n <= stop -> stop <= iterations ->
  (Z.to_nat (iterations - n) <= fuel)%nat ->
  nonnan cx -> nonnan cy -> nonnan z0 -> nonnan z1 ->
  (z0, z1) = iterate (Z.to_nat n) cx cy ->
  (forall k, n <= k < stop -> escaped (iterate (Z.to_nat k) cx cy) = false) ->
  (stop < iterations -> escaped (iterate (Z.to_nat stop) cx cy) = true) ->
  (n_loop fuel iterations index cx cy n z0 z1 st).1.1.1 = stop.
Proof.
  intros Hit Hn Hstop Hfuel Hcx Hcy Hz0 Hz1 Hz Hbefore Hat.
  revert n z0 z1 st Hn Hfuel Hz0 Hz1 Hz Hbefore.
  induction fuel as [|fuel IH]; intros n z0 z1 st Hn Hfuel Hz0 Hz1 Hz Hbefore;
    simpl.
  { lia. }
  destruct (Z.ltb_spec n iterations) as [Hlt|Hge]; [|simpl; lia].
  pose proof (test_total z0 z1 Hz0 Hz1) as Htot.
  destruct (Z.eq_dec n stop) as [->|Hne].
  - specialize (Hat Hlt). rewrite <- Hz in Hat. unfold escaped in Hat.
    cbn [fst snd] in Hat. rewrite Hat in Htot.
    destruct (_ <=? _)%float; done.
  - pose proof (Hbefore n ltac:(lia)) as Hnow. rewrite <- Hz in Hnow.
    unfold escaped in Hnow. cbn [fst snd] in Hnow.
    rewrite Hnow in Htot.
    destruct (z0 * z0 + z1 * z1 <=? 100)%float eqn:Htest; [|done].
    destruct (step_nonnan z0 z1 cx cy Hz0 Hz1 Hcx Hcy Htest) as [Hz0' Hz1'].
    rewrite (incr_below n iterations) by (done || lia).
    apply IH; try done; try lia.
    + rewrite iterate_succ by lia. by rewrite <- Hz.
    + intros k Hk. apply Hbefore. lia.
Qed.

Lemma cell_steps_stop size iterations i j stop :
  Int.in_range size -> Int.in_range iterations ->
  0 < size -> 0 <= i < size -> 0 <= j < size ->
  0 <= stop <= iterations ->
  (forall k, 0 <= k < stop -> escaped (iterate_at size i j k) = false) ->
  (stop < iterations -> escaped (iterate_at size i j stop) = true) ->
  cell_steps size iterations i j = stop.
Proof.
  intros Hsz Hit Hpos Hi Hj Hstop Hbefore Hat.
  unfold Int.in_range, Int.min_signed, Int.max_signed in Hsz.
  unfold cell_steps, cell_locals, cell.
  apply n_loop_steps;
    (done || lia || apply nonnan_0 || apply cx_at_nonnan || apply cy_at_nonnan);
    lia.
Qed.

(** While the index cannot overflow, for every [size] from [1] to [46340],
    every [iterations > 0] and every cell [(i, j)] of the grid: when the iterate
    of the cell satisfies [z0^2 + z1^2 > 100.0] at no step below
    [iterations], the value at the index [i * size + j] after the call is
    [iterations - 1]; when it first does so at a step [n > 0], the value is
    [n - 1]. *)
Theorem recorded_last_step_small size iterations i j m :
  0 < size <= 46340 -> Int.in_range iterations -> 0 < iterations ->
  0 <= i < size -> 0 <= j < size ->
  recorded_last_step size iterations i j m.
Proof.
  intros Hsz Hit Hpos Hi Hj. unfold recorded_last_step.
  rewrite mandelbrot_lookup_small by (done || nia).
  rewrite Z.div_add_l, Z.div_small, Z.add_0_r by lia.
  rewrite (Z.add_comm (i * size)), Z.mod_add, Z.mod_small by lia.
  pose proof (small_in_range size Hsz) as Hsz'.
  split.
  - intros Hnever. f_equal. f_equal.
    apply cell_steps_stop; (done || lia).
  - intros n Hn Hbefore Hat. f_equal. f_equal.
    apply cell_steps_stop; (done || lia).
Qed.

Lemma recorded_last_step_small_witness :
  col (mandelbrot 1 2 (State ∅ [])) !! (0 * 1 + 0) = Some (2 - 1) /\
  col (mandelbrot 3 50 (State ∅ [])) !! (0 * 3 + 0) = Some (3 - 1).
Proof.
  assert (Hr : forall x, -46340 <= x <= 46340 -> Int.in_range x).
  { unfold Int.in_range, Int.min_signed, Int.max_signed. lia. }
  split.
  - apply (proj1 (recorded_last_step_small 1 2 0 0 ∅ ltac:(lia)
                    (Hr 2 ltac:(lia)) ltac:(lia) ltac:(lia) ltac:(lia))).
    intros n Hn. assert (n = 0 \/ n = 1) as [-> | ->] by lia; by vm_compute.
  - apply (proj2 (recorded_last_step_small 3 50 0 0 ∅ ltac:(lia)
                    (Hr 50 ltac:(lia)) ltac:(lia) ltac:(lia) ltac:(lia)) 3);
      [lia| |by vm_compute].
    intros k Hk.
    assert (k = 0 \/ k = 1 \/ k = 2) as [-> | [-> | ->]] by lia;
      by vm_compute.
Defined.

(** Claim C3, the value at the index [i * size + j] is [iterations - 1]
    for a cell that never escapes, is broken by the code at [size = 46341],
    [iterations = 1]: the call enters the cell [(46340, 46340)], which does
    not escape at the step [0], and there the evaluation of
    [index = i * size + j] in [int] overflows.  Where the overflow wraps
    around, the element at the index [46340 * 46341 + 46340] of the buffer
    is not [0] after the call: it keeps the [-1] it held. *)
Lemma recorded_last_step_46341 :
  overflow_reached 46341 1 (filled (46341 * 46341) (-1)) 46340 46340 /\
  buffer (46341 * 46341) (filled (46341 * 46341) (-1)) /\
  ~ recorded_last_step 46341 1 46340 46340 (filled (46341 * 46341) (-1)).
Proof.
  split; [apply (overflow_reached_46341 (filled (46341 * 46341) (-1)))|].
  split; [apply filled_buffer|]. intros [H _].
  assert (Hout : ~ Int.in_range (46340 * 46341 + 46340)).
  { unfold Int.in_range, Int.min_signed, Int.max_signed. lia. }
  rewrite (mandelbrot_lookup_outside 46341 1 (filled (46341 * 46341) (-1)) []
             (46340 * 46341 + 46340) in_range_46341 in_range_1 Hout) in H.
  rewrite filled_lookup in H by lia.
  assert (Some (-1) = Some (1 - 1)) as [=].
  apply H. intros n Hn. assert (n = 0) as -> by lia. by vm_compute.
Qed.

(** * Further properties of [mandelbrot] *)

(** ** Calling twice *)

Lemma run_twice_col evs st : col (run evs (run evs st)) = col (run evs st).
Proof.
  apply map_eq. intros k. rewrite (run_lookup evs (run evs st)).
  destruct (last (stores_at k evs)) as [v|] eqn:E; [|done].
  by rewrite run_lookup, E.
Qed.

(** A second call with the same arguments, on the memory that the first
    one left, changes no element of the memory: this holds for every
    [size] and [iterations] that are [int]s, also where the index
    overflows. *)
Theorem mandelbrot_twice size iterations st :
  Int.in_range size -> Int.in_range iterations ->
  col (mandelbrot size iterations (mandelbrot size iterations st)) =
  col (mandelbrot size iterations st).
Proof.
  intros Hsz Hit. rewrite !(mandelbrot_run size iterations) by done.
  apply run_twice_col.
Qed.

Lemma mandelbrot_twice_witness :
  col (mandelbrot 2 3 (mandelbrot 2 3 empty_state)) =
  col (mandelbrot 2 3 empty_state).
Proof.
  apply (mandelbrot_twice 2 3 empty_state);
    unfold Int.in_range, Int.min_signed, Int.max_signed; lia.
Defined.

(** ** What a call leaves alone *)

(** Up to [size = 46340] a call changes nothing outside the [size * size]
    elements of the buffer: every other offset of the memory holds after
    the call what it held before, or is still not mapped. *)
Theorem mandelbrot_frame size iterations m k :
  Int.in_range size -> size <= 46340 -> Int.in_range iterations ->
  ~ (0 <= k < size * size) ->
  col (mandelbrot size iterations (State m [])) !! k = m !! k.
Proof.
  intros Hsz Hsmall Hit Hk. rewrite mandelbrot_run by done.
  rewrite run_lookup, stores_at_grid.
  rewrite bind_all_nil; [done|].
  intros i Hi%elem_of_seqZ. apply bind_all_nil. intros j Hj%elem_of_seqZ.
  destruct (decide _) as [He|]; [|done].
  apply index_at_inj in He; lia.
Qed.

Lemma mandelbrot_frame_witness :
  col (mandelbrot 2 3 (State (filled 6 7) [])) !! 4 = filled 6 7 !! 4.
Proof.
  apply (mandelbrot_frame 2 3 (filled 6 7) 4);
    unfold Int.in_range, Int.min_signed, Int.max_signed; lia.
Defined.

(** For every [size] up to [46340], where the index cannot overflow, and
    every [iterations], each store of a call, also one that a later step
    overwrites, writes a value [n] with [0 <= n < iterations]. *)
Theorem stored_values_in_range size iterations m index n :
  Int.in_range size -> size <= 46340 -> Int.in_range iterations ->
  Store index n ∈ log (mandelbrot size iterations (State m [])) ->
  0 <= n < iterations.
Proof.
  intros Hsz _ Hit Hin. rewrite mandelbrot_log in Hin by done.
  apply grid_events_inv in Hin as (i & j & Hi & Hj & -> & Hn).
  pose proof (cell_steps_bounds size iterations i j Hit). lia.
Qed.

Lemma stored_values_in_range_witness : 0 <= 2 < 3.
Proof.
  assert (Hr : forall x, -46340 <= x <= 46340 -> Int.in_range x).
  { unfold Int.in_range, Int.min_signed, Int.max_signed. lia. }
  apply (stored_values_in_range 2 3 ∅ 3 2
           (Hr 2 ltac:(lia)) ltac:(lia) (Hr 3 ltac:(lia))).
  rewrite mandelbrot_log by (apply Hr; lia).
  apply elem_of_stores_at.
  assert (E : stores_at 3 (grid_events 2 3) = [0; 1; 2]) by (by vm_compute).
  rewrite E. set_solver.
Defined.

(** ** The order of the events *)

(** A call goes through the rows in order, through the cells of a row in
    order, and in a cell it stores [0], [1], ... at the index of the cell,
    as many values as the cell takes steps; it does nothing else. *)
Theorem call_in_row_major_order size iterations st :
  Int.in_range size -> Int.in_range iterations ->
  log (mandelbrot size iterations st) =
  log st ++
  (seqZ 0 size ≫= fun i =>
     Row i ::
     (seqZ 0 size ≫= fun j =>
        Cell i j ::
        map (Store (index_at size i j))
            (seqZ 0 (cell_steps size iterations i j)))).
Proof. intros Hsz Hit. by rewrite mandelbrot_run. Qed.

Lemma call_in_row_major_order_witness :
  log (mandelbrot 2 1 empty_state) =
  log empty_state ++
  (seqZ 0 2 ≫= fun i =>
     Row i ::
     (seqZ 0 2 ≫= fun j =>
        Cell i j ::
        map (Store (index_at 2 i j)) (seqZ 0 (cell_steps 2 1 i j)))).
Proof.
  apply (call_in_row_major_order 2 1 empty_state);
    unfold Int.in_range, Int.min_signed, Int.max_signed; lia.
Defined.

(** ** A smaller budget of iterations *)

(** With the budget [iterations] instead of a larger [iterations'], the
    [n] loop ends where it ended, or at [iterations]. *)
Lemma n_loop_budget fuel fuel' iterations iterations' index cx cy n z0 z1 st st' :
  Int.in_range iterations' -> 0 <= n <= iterations -> iterations <= iterations' ->
  (Z.to_nat (iterations - n) <= fuel)%nat ->
  (Z.to_nat (iterations' - n) <= fuel')%nat ->
  (n_loop fuel iterations index cx cy n z0 z1 st).1.1.1 =
  Z.min iterations (n_loop fuel' iterations' index cx cy n z0 z1 st').1.1.1.
Proof.
  intros Hit' Hn Hle.
  assert (Hit : Int.in_range iterations).
  { unfold Int.in_range, Int.min_signed, Int.max_signed in *. lia. }
  revert fuel' n z0 z1 st st' Hn.
  induction fuel as [|fuel IH]; intros fuel' n z0 z1 st st' Hn Hfuel Hfuel'.
  - simpl.
    destruct (n_loop_run fuel' iterations' index cx cy n z0 z1 st' Hit'
                ltac:(lia)) as [Hb _]. lia.
  - simpl. destruct (Z.ltb_spec n iterations) as [Hlt|Hge].
    + destruct fuel' as [|fuel']; [lia|]. simpl.
      destruct (Z.ltb_spec n iterations') as [_|?]; [|lia].
      destruct (_ <=? _)%float; [|simpl; lia].
      rewrite (incr_below n iterations) by (done || lia).
      apply IH; lia.
    + simpl.
      destruct (n_loop_run fuel' iterations' index cx cy n z0 z1 st' Hit'
                  ltac:(lia)) as [Hb _]. lia.
Qed.

Lemma cell_steps_budget size iterations iterations' i j :
  Int.in_range iterations' -> 0 <= iterations <= iterations' ->
  cell_steps size iterations i j =
  Z.min iterations (cell_steps size iterations' i j).
Proof.
  intros Hit' Hle. unfold cell_steps, cell_locals, cell.
  apply n_loop_budget; (done || lia).
Qed.

(** Up to [size = 46340], lowering the budget from [iterations'] to
    [iterations] caps every element of the buffer at [iterations - 1] and
    changes nothing else: the element is the minimum of [iterations - 1]
    and what the larger budget leaves. *)
Theorem smaller_budget size iterations iterations' m m' k :
  0 < size <= 46340 -> Int.in_range iterations' ->
  0 < iterations <= iterations' -> 0 <= k < size * size ->
  exists v', col (mandelbrot size iterations' (State m' [])) !! k = Some v' /\
    col (mandelbrot size iterations (State m [])) !! k =
      Some (Z.min (iterations - 1) v').
Proof.
  intros Hsz Hit' Hle Hk.
  assert (Hit : Int.in_range iterations).
  { unfold Int.in_range, Int.min_signed, Int.max_signed in *. lia. }
  rewrite !mandelbrot_lookup_small by (done || lia).
  eexists. split; [done|]. f_equal.
  rewrite (cell_steps_budget size iterations iterations') by (done || lia).
  lia.
Qed.

Lemma smaller_budget_witness :
  exists v', col (mandelbrot 2 9 (State ∅ [])) !! 3 = Some v' /\
    col (mandelbrot 2 4 (State (filled 4 0) [])) !! 3 = Some (Z.min (4 - 1) v').
Proof.
  apply (smaller_budget 2 4 9 (filled 4 0) ∅ 3);
    unfold Int.in_range, Int.min_signed, Int.max_signed; lia.
Defined.

(** ** The work of a call *)

Lemma length_bind_bounds {A B} (f : A -> list B) (l : list A) (a b : nat) :
  (forall x, x ∈ l -> (a <= length (f x) <= b)%nat) ->
  (a * length l <= length (l ≫= f) <= b * length l)%nat.
Proof.
  induction l as [|x l IH]; intros H; [simpl; lia|].
  rewrite bind_cons, length_app. simpl.
  pose proof (H x ltac:(apply elem_of_cons; by left)).
  assert (a * length l <= length (l ≫= f) <= b * length l)%nat.
  { apply IH. intros y Hy. apply H, elem_of_cons. by right. }
  lia.
Qed.

Lemma all_stores_app evs1 evs2 :
  all_stores (evs1 ++ evs2) = all_stores evs1 ++ all_stores evs2.
Proof. apply omap_app. Qed.

Lemma all_stores_bind {A} (f : A -> list event) (l : list A) :
  all_stores (l ≫= f) = l ≫= (fun x => all_stores (f x)).
Proof.
  induction l as [|x l IH]; [done|].
  by rewrite !bind_cons, all_stores_app, IH.
Qed.

Lemma all_stores_cell size iterations i j :
  length (all_stores (cell_events size iterations i j)) =
  Z.to_nat (cell_steps size iterations i j).
Proof.
  unfold cell_events. change (Cell i j :: ?l) with ([Cell i j] ++ l).
  rewrite all_stores_app. simpl. rewrite <- (length_seqZ 0).
  induction (seqZ 0 _) as [|x l IH]; [done|]. simpl. by rewrite IH.
Qed.

(** A call with [size > 0] and [iterations > 0] executes [col[index] = n]
    at least [size * size] times and at most [size * size * iterations]
    times, whatever the size. *)
Theorem stores_count size iterations m :
  Int.in_range size -> Int.in_range iterations ->
  0 < size -> 0 < iterations ->
  size * size <=
    Z.of_nat (length (all_stores (log (mandelbrot size iterations (State m [])))))
  <= size * size * iterations.
Proof.
  intros Hsz Hit Hpos Hipos. rewrite mandelbrot_log by done.
  unfold grid_events. rewrite all_stores_bind.
  pose proof (length_bind_bounds
    (fun i => all_stores (row_events size iterations i)) (seqZ 0 size)
    (Z.to_nat size * 1) (Z.to_nat size * Z.to_nat iterations)) as H.
  rewrite length_seqZ in H. 
  assert (Hrow : forall i, i ∈ seqZ 0 size ->
    (Z.to_nat size * 1 <= length (all_stores (row_events size iterations i))
       <= Z.to_nat size * Z.to_nat iterations)%nat).
  { intros i _. unfold row_events.
    change (Row i :: ?l) with ([Row i] ++ l).
    rewrite all_stores_app, all_stores_bind.
    change (all_stores [Row i]) with (@nil (Z * Z)). rewrite app_nil_l.
    pose proof (length_bind_bounds
      (fun j => all_stores (cell_events size iterations i j)) (seqZ 0 size)
      1 (Z.to_nat iterations)) as Hc.
    rewrite length_seqZ in Hc.
    assert (1 * Z.to_nat size <=
            length (seqZ 0 size ≫= fun j => all_stores (cell_events size iterations i j))
            <= Z.to_nat iterations * Z.to_nat size)%nat; [|lia].
    apply Hc. intros j _. rewrite all_stores_cell.
    pose proof (cell_steps_pos size iterations i j Hit Hipos).
    pose proof (cell_steps_bounds size iterations i j Hit). lia. }
  specialize (H Hrow). nia.
Qed.

Lemma stores_count_witness :
  2 * 2 <= Z.of_nat (length (all_stores (log (mandelbrot 2 3 (State ∅ [])))))
  <= 2 * 2 * 3.
Proof.
  apply (stores_count 2 3 ∅);
    unfold Int.in_range, Int.min_signed, Int.max_signed; lia.
Defined.

(** ** No NaN *)

Lemma SFcompare_refl x : x <> S754_nan -> SFcompare x x = Some Eq.
Proof.
  destruct x as [s|s| |s m e]; try done; intros _; unfold SFcompare.
  - by destruct s.
  - destruct s; rewrite Z.compare_refl, Pos.compare_cont_refl; done.
Qed.

Lemma is_nan_false x : is_nan x = false <-> nonnan x.
Proof.
  unfold is_nan, nonnan. rewrite FloatAxioms.eqb_spec. unfold SFeqb. split.
  - intros H E. rewrite E in H. done.
  - intros H. by rewrite SFcompare_refl.
Qed.

Lemma n_loop_nonnan fuel iterations index cx cy n z0 z1 st :
  nonnan cx -> nonnan cy -> nonnan z0 -> nonnan z1 ->
  nonnan (n_loop fuel iterations index cx cy n z0 z1 st).1.1.2 /\
  nonnan (n_loop fuel iterations index cx cy n z0 z1 st).1.2.
Proof.
  intros Hcx Hcy. revert n z0 z1 st.
  induction fuel as [|fuel IH]; intros n z0 z1 st Hz0 Hz1; simpl; [done|].
  destruct (n <? iterations); [|done].
  destruct (z0 * z0 + z1 * z1 <=? 100)%float eqn:Htest; [|done].
  destruct (step_nonnan z0 z1 cx cy Hz0 Hz1 Hcx Hcy Htest) as [Hz0' Hz1'].
  by apply IH.
Qed.

(** For every [size > 0] and every cell of the grid, no double of the
    computation is a NaN: neither the coordinates [cx] and [cy], nor the
    [z0] and [z1] that the [n] loop ends with, whatever the budget of
    iterations. *)
Theorem cell_never_nan size iterations i j :
  Int.in_range size -> 0 < size -> 0 <= i < size -> 0 <= j < size ->
  is_nan (cx_at size j) = false /\ is_nan (cy_at size i) = false /\
  is_nan (cell_locals size iterations i j).1.2 = false /\
  is_nan (cell_locals size iterations i j).2 = false.
Proof.
  intros Hsz Hpos Hi Hj.
  unfold Int.in_range, Int.min_signed, Int.max_signed in Hsz.
  assert (Hcx : nonnan (cx_at size j)) by (apply cx_at_nonnan; lia).
  assert (Hcy : nonnan (cy_at size i)) by (apply cy_at_nonnan; lia).
  rewrite !is_nan_false. split; [done|]. split; [done|].
  unfold cell_locals, cell. apply n_loop_nonnan; (done || apply nonnan_0).
Qed.

Lemma cell_never_nan_witness :
  is_nan (cx_at 3 1) = false /\ is_nan (cy_at 3 2) = false /\
  is_nan (cell_locals 3 50 2 1).1.2 = false /\
  is_nan (cell_locals 3 50 2 1).2 = false.
Proof.
  apply (cell_never_nan 3 50 2 1);
    unfold Int.in_range, Int.min_signed, Int.max_signed; lia.
Defined.

(** ** What a recorded value means *)

(** The [n] loop ends at the first step at which the iterate has escaped,
    if there is one below [iterations]. *)
Lemma n_loop_escape fuel iterations index cx cy n z0 z1 st :
  Int.in_range iterations -> 0 <= n ->
  (Z.to_nat (iterations - n) <= fuel)%nat ->
  nonnan cx -> nonnan cy -> nonnan z0 -> nonnan z1 ->
  (z0, z1) = iterate (Z.to_nat n) cx cy ->
  let n' := (n_loop fuel iterations index cx cy n z0 z1 st).1.1.1 in
  (forall k, n <= k < n' -> escaped (iterate (Z.to_nat k) cx cy) = false) /\
  (n' < iterations -> escaped (iterate (Z.to_nat n') cx cy) = true).
Proof.
  intros Hit Hn Hfuel Hcx Hcy. revert n z0 z1 st Hn Hfuel.
  induction fuel as [|fuel IH]; intros n z0 z1 st Hn Hfuel Hz0 Hz1 Hz; simpl.
  { split; intros; lia. }
  destruct (Z.ltb_spec n iterations) as [Hlt|Hge]; [|simpl; split; intros; lia].
  pose proof (test_total z0 z1 Hz0 Hz1) as Htot.
  assert (Hesc : escaped (iterate (Z.to_nat n) cx cy) =
                 negb (z0 * z0 + z1 * z1 <=? 100)%float).
  { rewrite <- Hz. apply Htot. }
  destruct (z0 * z0 + z1 * z1 <=? 100)%float eqn:Htest; simpl.
  2:{ split; [intros; lia|]. by intros _. }
  destruct (step_nonnan z0 z1 cx cy Hz0 Hz1 Hcx Hcy Htest) as [Hz0' Hz1'].
  rewrite (incr_below n iterations) by (done || lia).
  edestruct (IH (n + 1)) as [Hbefore Hat]; [lia|lia|exact Hz0'|exact Hz1'| |].
  { rewrite iterate_succ by lia. by rewrite <- Hz. }
  split; [|exact Hat].
  intros k Hk. destruct (Z.eq_dec k n) as [->|Hne]; [done|].
  apply Hbefore. lia.
Qed.

(** Up to [size = 46340], the element at the index [i * size + j] after a
    call is a [v] with [0 <= v < iterations] such that the iterate of the
    cell [(i, j)] satisfies [z0^2 + z1^2 > 100.0] at no step from [0] to
    [v], and satisfies it at the step [v + 1] when [v < iterations - 1]. *)
Theorem recorded_value_meaning size iterations i j m :
  0 < size <= 46340 -> Int.in_range iterations -> 0 < iterations ->
  0 <= i < size -> 0 <= j < size ->
  exists v, col (mandelbrot size iterations (State m [])) !! (i * size + j) = Some v /\
    0 <= v < iterations /\
    (forall k, 0 <= k <= v -> escaped (iterate_at size i j k) = false) /\
    (v < iterations - 1 -> escaped (iterate_at size i j (v + 1)) = true).
Proof.
  intros Hsz Hit Hpos Hi Hj.
  rewrite mandelbrot_lookup_small by (done || nia).
  rewrite Z.div_add_l, Z.div_small, Z.add_0_r by lia.
  rewrite (Z.add_comm (i * size)), Z.mod_add, Z.mod_small by lia.
  eexists. split; [done|].
  pose proof (cell_steps_pos size iterations i j Hit Hpos).
  pose proof (cell_steps_bounds size iterations i j Hit).
  split; [lia|].
  destruct (n_loop_escape (Z.to_nat iterations) iterations (index_at size i j)
              (cx_at size j) (cy_at size i) 0 0 0 (emit (Cell i j) empty_state))
    as [Hbefore Hat];
    try (done || lia || apply nonnan_0).
  { apply cx_at_nonnan; lia. }
  { apply cy_at_nonnan; lia. }
  fold (cell size iterations i (cy_at size i) j empty_state) in Hbefore, Hat.
  fold (cell_locals size iterations i j) in Hbefore, Hat.
  fold (cell_steps size iterations i j) in Hbefore, Hat.
  split.
  - intros k Hk. apply Hbefore. lia.
  - intros Hv. unfold iterate_at.
    replace (cell_steps size iterations i j - 1 + 1)
      with (cell_steps size iterations i j) by lia.
    apply Hat. lia.
Qed.

Lemma recorded_value_meaning_witness :
  exists v, col (mandelbrot 3 50 (State ∅ [])) !! (2 * 3 + 1) = Some v /\
    0 <= v < 50 /\
    (forall k, 0 <= k <= v -> escaped (iterate_at 3 2 1 k) = false) /\
    (v < 50 - 1 -> escaped (iterate_at 3 2 1 (v + 1)) = true).
Proof.
  apply (recorded_value_meaning 3 50 2 1 ∅);
    unfold Int.in_range, Int.min_signed, Int.max_signed; lia.
Defined.

(** ** The first row, the first column and the corner *)

Lemma coordinate_origin (c : float) size sc mc ec :
  Prim2SF c = S754_finite sc mc ec -> 0 < size < 2 ^ 63 ->
  (c + double_of_int 0 / double_of_int size * 3)%float = c.
Proof.
  intros Hc Hsz. apply Prim2SF_inj.
  rewrite FloatAxioms.add_spec, FloatAxioms.mul_spec, FloatAxioms.div_spec,
    Prim2SF_3, !double_of_int_spec, Hc by lia.
  destruct (binary_normalize_int size Hsz) as (s & m & e & ->).
  reflexivity.
Qed.

Lemma origin_coordinates size :
  Int.in_range size -> 0 < size ->
  cx_at size 0 = (-2.0)%float /\ cy_at size 0 = (-1.5)%float.
Proof.
  intros Hsz Hpos. unfold Int.in_range, Int.min_signed, Int.max_signed in Hsz.
  split.
  - apply (coordinate_origin _ _ _ _ _ Prim2SF_m2). lia.
  - apply (coordinate_origin _ _ _ _ _ Prim2SF_m1_5). lia.
Qed.

(** For every [size > 0] the grid starts at [(-2.0, -1.5)] exactly: the
    first column has [cx = -2.0] and the first row has [cy = -1.5]. *)
Theorem grid_origin size :
  Int.in_range size -> 0 < size ->
  cx_at size 0 = (-2.0)%float /\ cy_at size 0 = (-1.5)%float.
Proof. apply origin_coordinates. Qed.

Lemma grid_origin_witness :
  cx_at 200 0 = (-2.0)%float /\ cy_at 200 0 = (-1.5)%float.
Proof.
  apply (grid_origin 200);
    unfold Int.in_range, Int.min_signed, Int.max_signed; lia.
Defined.

(** Up to [size = 46340], whatever the size, the corner cell [(0, 0)], the
    point [(-2.0, -1.5)], takes three steps and escapes: the first element
    of the buffer is [2] after a call with [iterations >= 3], and
    [iterations - 1] after a call with a smaller budget. *)
Theorem corner_cell size iterations m :
  0 < size <= 46340 -> Int.in_range iterations -> 0 < iterations ->
  col (mandelbrot size iterations (State m [])) !! 0 =
  Some (Z.min iterations 3 - 1).
Proof.
  intros Hsz Hit Hpos.
  rewrite mandelbrot_lookup_small by (done || nia).
  rewrite Z.div_0_l, Z.mod_0_l by lia. do 2 f_equal.
  pose proof (small_in_range size Hsz) as Hsz'.
  destruct (origin_coordinates size Hsz' ltac:(lia)) as [Ecx Ecy].
  apply cell_steps_stop; try (done || lia).
  - intros k Hk. unfold iterate_at. rewrite Ecx, Ecy.
    assert (k = 0 \/ k = 1 \/ k = 2) as [-> | [-> | ->]] by lia;
      by vm_compute.
  - intros Hlt. unfold iterate_at. rewrite Ecx, Ecy.
    replace (Z.min iterations 3) with 3 by lia. by vm_compute.
Qed.

Lemma corner_cell_witness :
  col (mandelbrot 3 50 (State ∅ [])) !! 0 = Some (Z.min 50 3 - 1).
Proof.
  apply (corner_cell 3 50 ∅);
    unfold Int.in_range, Int.min_signed, Int.max_signed; lia.
Defined.

(** ** One cell, one row *)

(** The body of the [j] loop changes no element of the memory but the one
    at the index of its cell, and the locals it ends with do not depend on
    the state it starts from: this holds for every size. *)
Theorem cell_touches_one_element size iterations i cy j st st' k :
  Int.in_range iterations -> k <> index_at size i j ->
  col (cell size iterations i cy j st).2 !! k = col st !! k /\
  (cell size iterations i cy j st).1 = (cell size iterations i cy j st').1.
Proof.
  intros Hit Hk. split; [|apply n_loop_locals].
  unfold cell.
  destruct (n_loop_run (Z.to_nat iterations) iterations (index_at size i j)
              (cx_at size j) cy 0 0 0 (emit (Cell i j) st) Hit ltac:(lia))
    as [_ ->].
  rewrite run_lookup, stores_at_map_Store.
  destruct (decide (index_at size i j = k)) as [E|_]; [congruence|done].
Qed.

Lemma cell_touches_one_element_witness :
  col (cell 3 50 1 (cy_at 3 1) 2 (State (filled 9 7) [])).2 !! 4 =
    col (State (filled 9 7) []) !! 4 /\
  (cell 3 50 1 (cy_at 3 1) 2 (State (filled 9 7) [])).1 =
    (cell 3 50 1 (cy_at 3 1) 2 empty_state).1.
Proof.
  apply (cell_touches_one_element 3 50 1 (cy_at 3 1) 2);
    [unfold Int.in_range, Int.min_signed, Int.max_signed; lia|by vm_compute].
Defined.

(** Up to [size = 46340] the body of the [i] loop for the row [i] stores
    only in the slice of the buffer of that row, the indices from
    [i * size] to [i * size + size - 1], and changes no element outside
    it: the rows work on disjoint parts of the buffer. *)
Theorem row_writes_its_slice size iterations i m :
  0 < size <= 46340 -> Int.in_range iterations -> 0 <= i < size ->
  (forall index n, Store index n ∈ log (row size iterations i (State m [])) ->
     i * size <= index < (i + 1) * size) /\
  (forall k, ~ (i * size <= k < (i + 1) * size) ->
     col (row size iterations i (State m [])) !! k = m !! k).
Proof.
  intros Hsz Hit Hi. pose proof (small_in_range size Hsz) as Hsz'.
  rewrite row_run by done. split.
  - intros index n Hin. cbn [run log app] in Hin. unfold row_events in Hin.
    apply elem_of_cons in Hin as [?|Hin]; [done|].
    apply list_elem_of_bind in Hin as (j & Hcell & Hj%elem_of_seqZ).
    unfold cell_events in Hcell.
    apply elem_of_cons in Hcell as [?|Hst]; [done|].
    apply (list_elem_of_fmap_1 (Store (index_at size i j))) in Hst
      as (v & [= -> ->] & _).
    rewrite index_at_small by (done || lia). lia.
  - intros k Hk. rewrite run_lookup. cbn [col].
    unfold row_events. change (Row i :: ?l) with ([Row i] ++ l).
    rewrite stores_at_app, stores_at_bind.
    change (stores_at k [Row i]) with (@nil Z). rewrite app_nil_l.
    rewrite bind_all_nil; [done|].
    intros j Hj%elem_of_seqZ. rewrite stores_at_cell.
    destruct (decide _) as [He|]; [|done].
    rewrite index_at_small in He by (done || lia). lia.
Qed.

Lemma row_writes_its_slice_witness :
  (forall index n, Store index n ∈ log (row 3 50 1 (State (filled 9 7) [])) ->
     1 * 3 <= index < (1 + 1) * 3) /\
  (forall k, ~ (1 * 3 <= k < (1 + 1) * 3) ->
     col (row 3 50 1 (State (filled 9 7) [])) !! k = filled 9 7 !! k).
Proof.
  apply (row_writes_its_slice 3 50 1 (filled 9 7));
    unfold Int.in_range, Int.min_signed, Int.max_signed; lia.
Defined.
